(** * easymcp frontend: the client-side data-access layer

    A shallow embedding of the transport client ([ApiClient] in
    [frontend/src/lib/design-system.ts]) with its methods, the
    authentication provider with login, logout and the route guards
    ([hooks/use-auth.ts], [RequireAuth], the login page), the system
    query hooks, the generic and the optimistic mutation helpers, the
    per-item status poller and the error helpers, followed by the
    properties established about them.

    Conventions of the embedding:
    - a JavaScript [number] that the code uses as an integer (HTTP status,
      retry counter, delay in milliseconds) is a [Z];
    - [string | null] is [option string]; JavaScript truthiness of such a
      value ([if (token)]) is [truthy]: non-null and non-empty;
    - a plain object used as a dictionary and a [Map] are [gmap]s;
    - asynchronous code is sequentialised: within one call of
      [ApiClient.request] the attempts are strictly sequential, so a run is
      a final result together with the trace of observable events
      (fetches, delays, redirects) in program order. *)

From Stdlib Require Import ZArith String List Lia.
From stdpp Require Import base option gmap strings list fin_maps pretty.

Open Scope string_scope.
Open Scope Z_scope.

(** ** JavaScript values shared by the components *)

(** [if (s)] on a [string | null]. *)
Definition truthy (s : option string) : bool :=
  match s with
  | Some v => negb (String.eqb v "")
  | None => false
  end.

(** [a || b] on strings-or-undefined, with a string default. *)
Definition or_else (s : option string) (d : string) : string :=
  if truthy s then default d s else d.

(** [haystack.includes(needle)]. *)
Definition includes_str (haystack needle : string) : bool :=
  match String.index 0 needle haystack with
  | Some _ => true
  | None => false
  end.

(** [arr.includes(x)] on an array of numbers. *)
Definition includes_num (arr : list Z) (x : Z) : bool :=
  existsb (Z.eqb x) arr.

(** [arr.includes(x)] on an array of strings. *)
Definition includes_string (arr : list string) (x : string) : bool :=
  existsb (String.eqb x) arr.

(** The result of [response.json()]: the promise rejects with a
    [SyntaxError] of the given message when the body is not JSON;
    otherwise it is [null] or an object whose string-valued fields are
    read by name (a JSON number, string or array reads as an object with
    none of the fields asked for). *)
Inductive Json :=
| JInvalid (syntaxError : string)
| JNull
| JObject (fields : gmap string string).

(** Values a JavaScript [throw] can carry, as far as the client tells them
    apart. *)
Inductive Thrown :=
| ThrownError (message : string)          (* [instanceof Error] *)
| ThrownString (s : string)               (* a bare string *)
| ThrownObject (message : option string)  (* an object, maybe with [message] *)
| ThrownOther.

(** A notification of [react-hot-toast]. *)
Inductive Toast :=
| ToastSuccess (message : string)
| ToastError (message : string).

(** How a mutation settles: with its data, or with an [Error] of the
    given message. *)
Inductive Settled (A : Type) :=
| Succeeded (data : A)
| Failed (message : string).
Arguments Succeeded {A} data.
Arguments Failed {A} message.

(** ** The transport client *)

Module ApiClient.

Record RetryConfig := {
  maxRetries : Z;
  retryDelay : Z;
  retryStatuses : list Z
}.

Record t := {
  baseUrl : string;
  retryConfig : RetryConfig;
  authToken : option string;
  apiKey : option string
}.

Definition defaultRetryConfig : RetryConfig :=
  {| maxRetries := 3; retryDelay := 1000;
     retryStatuses := [408; 429; 500; 502; 503; 504] |}.

(** [new ApiClient(baseUrl, retryConfig)] *)
Definition new (baseUrl : string) (retryConfig : RetryConfig) : t :=
  {| baseUrl := baseUrl; retryConfig := retryConfig;
     authToken := None; apiKey := None |}.

Definition with_authToken (c : t) (v : option string) : t :=
  {| baseUrl := baseUrl c; retryConfig := retryConfig c;
     authToken := v; apiKey := apiKey c |}.

Definition with_apiKey (c : t) (v : option string) : t :=
  {| baseUrl := baseUrl c; retryConfig := retryConfig c;
     authToken := authToken c; apiKey := v |}.

Definition setAuthToken (token : option string) (c : t) : t :=
  let c := with_authToken c token in
  if truthy token then with_apiKey c None else c.

Definition setApiKey (key : option string) (c : t) : t :=
  let c := with_apiKey c key in
  if truthy key then with_authToken c None else c.

(** Both credentials armed at once: each non-null and non-empty, as
    [request] tests them. *)
Definition bothArmed (c : t) : bool :=
  truthy (authToken c) && truthy (apiKey c).

(** A sequence of credential calls on one client. *)
Inductive CredentialCall :=
| SetAuthToken (token : option string)
| SetApiKey (key : option string).

Definition call (c : t) (op : CredentialCall) : t :=
  match op with
  | SetAuthToken token => setAuthToken token c
  | SetApiKey key => setApiKey key c
  end.

Definition calls (ops : list CredentialCall) (c : t) : t :=
  fold_left call ops c.

(** The platform [Response], as far as the client reads it. *)
Record Response := {
  status : Z;
  statusText : string;
  json : Json
}.

(** [response.ok]: the status is in the range 200-299 (Fetch standard). *)
Definition ok (r : Response) : bool :=
  (200 <=? status r) && (status r <=? 299).

(** Reading [errorData.<name>] and testing it with [if (...)]. *)
Definition field (fields : gmap string string) (name : string) : option string :=
  fields !! name.

(** How the [try] block of [parseErrorResponse] ends. *)
Inductive TryEnd :=
| Returned (message : string)
| Threw
| FellThrough.

Definition statusLine (r : Response) : string :=
  "API request failed: " +:+ statusText r +:+ " (" +:+ pretty (status r) +:+ ")".

Definition parseErrorResponse_try (r : Response) : TryEnd :=
  match json r with
  | JInvalid _ => Threw
  | errorData =>
      if status r =? 401 then
        Returned "Authentication failed. Please log in again."
      else if status r =? 403 then
        Returned "Access denied. You don't have permission to perform this action."
      else if status r =? 500 then
        Returned "Server error. Please try again later or contact support."
      else
        match errorData with
        | JObject e =>
            if truthy (field e "detail") then Returned (default "" (field e "detail"))
            else if truthy (field e "message") then Returned (default "" (field e "message"))
            else if truthy (field e "code") then
              Returned ("Error " +:+ default "" (field e "code") +:+ ": " +:+ statusText r)
            else FellThrough
        | _ => Threw  (* reading a property of [null] raises a TypeError *)
        end
  end.

Definition parseErrorResponse_catch (r : Response) : option string :=
  if status r =? 401 then
    Some "Authentication failed. Please log in again."
  else if status r =? 403 then
    Some "Access denied. You don't have permission to perform this action."
  else if status r =? 500 then
    Some "Server error. Please try again later."
  else None.

Definition parseErrorResponse (r : Response) : string :=
  match parseErrorResponse_try r with
  | Returned message => message
  | Threw => default (statusLine r) (parseErrorResponse_catch r)
  | FellThrough => statusLine r
  end.

Definition getErrorMessage (error : Thrown) : string :=
  match error with
  | ThrownError message => message
  | ThrownString s => s
  | ThrownObject (Some message) => message
  | _ => "An unexpected error occurred"
  end.

(** [RequestInit], as far as the client reads it. *)
Record RequestInit := {
  method : option string;
  headers : gmap string string;
  body : option string
}.

Definition noOptions : RequestInit :=
  {| method := None; headers := ∅; body := None |}.

(** What one call of [fetch] does: it rejects, or it answers. *)
Inductive FetchOutcome :=
| FetchRejects (error : Thrown)
| FetchResponds (response : Response).

(** The remote service seen from one logical request: the outcome of the
    [n]-th call of [fetch]. *)
Definition Server := nat → FetchOutcome.

(** Observable events of a request, in program order. *)
Inductive Event :=
| EvFetch (url : string) (method : option string) (headers : gmap string string)
| EvDelay (ms : Z)
| EvRedirect (href : string).

(** How the promise returned by [request] settles. *)
Inductive Result :=
| Resolved (value : Json)
| Rejected (error : Thrown)
| OutOfFuel.

Definition Run : Type := Result * list Event.

Definition emit (evs : list Event) (run : Run) : Run :=
  (run.1, (evs ++ run.2)%list).

(** The headers sent: the JSON content type, the caller's headers over
    it, then exactly one credential header. *)
Definition requestHeaders (c : t) (options : RequestInit) : gmap string string :=
  let headers := headers options ∪ {[ "Content-Type" := "application/json" ]} in
  if truthy (apiKey c) then <[ "x-api-key" := default "" (apiKey c) ]> headers
  else if truthy (authToken c) then
    <[ "Authorization" := "Bearer " +:+ default "" (authToken c) ]> headers
  else headers.

Definition isNonIdempotent (options : RequestInit) : bool :=
  includes_string ["POST"; "PUT"; "PATCH"; "DELETE"] (or_else (method options) "GET").

Definition shouldRetryOnServerError (endpoint : string) (options : RequestInit) : bool :=
  negb (isNonIdempotent options) || negb (String.eqb endpoint "/api/auth/api-keys").

Definition shouldRetry (c : t) (endpoint : string) (options : RequestInit)
    (retryCount : Z) (response : Response) : bool :=
  (retryCount <? maxRetries (retryConfig c))
  && includes_num (retryStatuses (retryConfig c)) (status response)
  && (negb (status response =? 500) || shouldRetryOnServerError endpoint options).

(** The redirect of the 401 branch; [window] is [None] outside a browser
    and the current [location.pathname] inside one. *)
Definition redirectOn401 (window : option string) (response : Response) : list Event :=
  if status response =? 401 then
    match window with
    | Some pathname =>
        if negb (includes_str pathname "/login") then [EvRedirect "/login"] else []
    | None => []
    end
  else [].

Section Request.

Variable c : t.
Variable server : Server.
Variable window : option string.
Variable endpoint : string.
Variable options : RequestInit.

Definition thisFetch : Event :=
  EvFetch (baseUrl c +:+ endpoint) (method options) (requestHeaders c options).

Definition backoff (retryCount : Z) : Event :=
  EvDelay (retryDelay (retryConfig c) * (retryCount + 1)).

(** One activation of [request]: [again] is the recursive call
    [this.request(endpoint, options, retryCount + 1)], [n] counts the
    calls of [fetch] made so far. *)
Definition request_body (again : Z → nat → Run) (retryCount : Z) (n : nat) : Run :=
  (* the [catch] clause of the function *)
  let handler (error : Thrown) : Run :=
    match error with
    | ThrownError _ =>
        if retryCount <? maxRetries (retryConfig c) then
          emit [backoff retryCount] (again (retryCount + 1) (S n))
        else (Rejected error, [])
    | _ => (Rejected (ThrownError (getErrorMessage error)), [])
    end in
  emit [thisFetch]
    match server n with
    | FetchRejects error => handler error
    | FetchResponds response =>
        if negb (ok response) then
          let errorMessage := parseErrorResponse response in
          if shouldRetry c endpoint options retryCount response then
            emit [backoff retryCount] (again (retryCount + 1) (S n))
          else
            emit (redirectOn401 window response)
                 (handler (ThrownError errorMessage))
        else if status response =? 204 then (Resolved JNull, [])
        else
          match json response with
          | JInvalid syntaxError => (Rejected (ThrownError syntaxError), [])
          | value => (Resolved value, [])
          end
    end.

Fixpoint request_fuel (fuel : nat) (retryCount : Z) (n : nat) : Run :=
  match fuel with
  | O => (OutOfFuel, [])
  | S fuel => request_body (request_fuel fuel) retryCount n
  end.

(** Every recursive call raises [retryCount] and is guarded by
    [retryCount < maxRetries], so this much fuel is never used up: the
    function satisfies the recursive equation of the source
    ([request_unfold]) and always settles ([request_settles]). *)
Definition request (retryCount : Z) (n : nat) : Run :=
  request_fuel (S (Z.to_nat (maxRetries (retryConfig c) - retryCount))) retryCount n.

(** The events of [k] failed attempts in a row, the first of them made
    with retry counter [retryCount]: each is a fetch followed by the wait
    before the next attempt. *)
Fixpoint attempts (k : nat) (retryCount : Z) : list Event :=
  match k with
  | O => []
  | S k => thisFetch :: backoff retryCount :: attempts k (retryCount + 1)
  end.

End Request.

(** *** Reading a run *)

Definition isFetch (e : Event) : bool :=
  match e with EvFetch _ _ _ => true | _ => false end.

Definition fetchCount (trace : list Event) : nat :=
  length (List.filter isFetch trace).

(** The waits of a trace, in order. *)
Definition delays (trace : list Event) : list Z :=
  omap (λ e, match e with EvDelay ms => Some ms | _ => None end) trace.

(** A run was retried when it made more than one fetch. *)
Definition retried (run : Run) : bool :=
  (1 <? fetchCount run.2)%nat.

(** The statuses the design document lists as transient, 500 apart. *)
Definition isTransient (status : Z) : bool :=
  includes_num [408; 429; 502; 503; 504] status.

Definition transientFailure (outcome : FetchOutcome) : bool :=
  match outcome with
  | FetchResponds response => isTransient (status response)
  | FetchRejects _ => false
  end.

(** A service that gives the same answer to every fetch. *)
Definition answering (response : Response) : Server :=
  λ _, FetchResponds response.

(** A service that answers [first] once and [next] from then on. *)
Definition answeringThen (first next : Response) : Server :=
  λ n, match n with O => FetchResponds first | S _ => FetchResponds next end.

(** The module-level client of a production page ([getApiBaseUrl()] is
    the empty string there). *)
Definition api : t := new "" defaultRetryConfig.

Definition withMethod (m : string) : RequestInit :=
  {| method := Some m; headers := ∅; body := None |}.

(** Some answers of the service. *)
Definition notFound : Response :=
  {| status := 404; statusText := "Not Found";
     json := JInvalid "Unexpected token < in JSON at position 0" |}.

Definition serverError : Response :=
  {| status := 500; statusText := "Internal Server Error"; json := JNull |}.

Definition unavailable : Response :=
  {| status := 503; statusText := "Service Unavailable"; json := JNull |}.

Definition success : Response :=
  {| status := 200; statusText := "OK"; json := JObject ∅ |}.

(** The order of inspection as the design document words it: [detail],
    then [message], then the canned message of 401, 403 and 500, then the
    status line. *)
Definition messageInDocumentedOrder (r : Response) : string :=
  let fields := match json r with JObject e => e | _ => ∅ end in
  if truthy (field fields "detail") then default "" (field fields "detail")
  else if truthy (field fields "message") then default "" (field fields "message")
  else if status r =? 401 then "Authentication failed. Please log in again."
  else if status r =? 403 then
    "Access denied. You don't have permission to perform this action."
  else if status r =? 500 then
    "Server error. Please try again later or contact support."
  else statusLine r.

(** Whether the body of a response is JSON at all. *)
Definition isJson (r : Response) : bool :=
  match json r with JInvalid _ => false | _ => true end.

(** The message of a status that has a canned one. *)
Definition cannedMessage (r : Response) : option string :=
  if status r =? 401 then Some "Authentication failed. Please log in again."
  else if status r =? 403 then
    Some "Access denied. You don't have permission to perform this action."
  else if status r =? 500 then
    Some (if isJson r then "Server error. Please try again later or contact support."
          else "Server error. Please try again later.")
  else None.

(** The first of [detail], [message] and [code] that is set, as the
    message it gives. *)
Definition bodyMessage (r : Response) : option string :=
  match json r with
  | JObject e =>
      if truthy (field e "detail") then field e "detail"
      else if truthy (field e "message") then field e "message"
      else if truthy (field e "code") then
        Some ("Error " +:+ default "" (field e "code") +:+ ": " +:+ statusText r)
      else None
  | _ => None
  end.

(** *** More ways of reading a run *)

(** The targets of the redirects of a trace, in order. *)
Definition redirects (trace : list Event) : list string :=
  omap (λ e, match e with EvRedirect href => Some href | _ => None end) trace.

(** The headers of the fetches of a trace, in order. *)
Definition fetchHeaders (trace : list Event) : list (gmap string string) :=
  omap (λ e, match e with EvFetch _ _ h => Some h | _ => None end) trace.

(** [error instanceof Error] *)
Definition isErrorInstance (error : Thrown) : bool :=
  match error with ThrownError _ => true | _ => false end.

(** What a caller of [request] can be handed: a parsed body or [null],
    or an [Error]. *)
Definition wellSettled (result : Result) : bool :=
  match result with
  | Resolved (JInvalid _) => false
  | Resolved _ => true
  | Rejected error => isErrorInstance error
  | OutOfFuel => false
  end.

(** What [request] returns on a response with [ok] set. *)
Definition successResult (response : Response) : Result :=
  if status response =? 204 then Resolved JNull
  else match json response with
       | JInvalid syntaxError => Rejected (ThrownError syntaxError)
       | value => Resolved value
       end.

(** The events between the fetch of a failed attempt and what follows
    it: none, or the one redirect to the login page, which takes a 401
    answer to the [n]-th fetch in a browser that is not on a login
    path. *)
Definition redirectOnly (window : option string) (server : Server) (n : nat)
    (evs : list Event) : Prop :=
  evs = []
  ∨ (evs = [EvRedirect "/login"]
     ∧ (∃ pathname, window = Some pathname ∧ includes_str pathname "/login" = false)
     ∧ ∃ response, server n = FetchResponds response ∧ status response = 401).

(** A failed attempt that causes no redirect: a rejection with an
    [Error], or an answer that is neither [ok] nor a 401. *)
Definition quietFailure (outcome : FetchOutcome) : bool :=
  match outcome with
  | FetchRejects error => isErrorInstance error
  | FetchResponds response => negb (ok response) && negb (status response =? 401)
  end.

(** What a failed attempt leaves the caller with when no retry remains. *)
Definition failureResult (outcome : FetchOutcome) : Result :=
  match outcome with
  | FetchRejects error => Rejected error
  | FetchResponds response => Rejected (ThrownError (parseErrorResponse response))
  end.

(** [fetch] rejects, and with an [Error]. *)
Definition rejectsWithError (outcome : FetchOutcome) : bool :=
  match outcome with
  | FetchRejects error => isErrorInstance error
  | FetchResponds _ => false
  end.

(** A service no fetch reaches: every call of [fetch] rejects. *)
Definition unreachable (error : Thrown) : Server :=
  λ _, FetchRejects error.

Definition unauthorized : Response :=
  {| status := 401; statusText := "Unauthorized";
     json := JObject {[ "detail" := "Token expired" ]} |}.

Definition noContent : Response :=
  {| status := 204; statusText := "No Content"; json := JInvalid "Unexpected end of JSON input" |}.

(** *** The methods of the client *)

(** The public methods, each with its arguments; a body argument is the
    payload already passed through [JSON.stringify]. *)
Inductive ApiCall :=
| ListServers
| CreateServer (name config : string)
| UpdateServerConfig (name config : string)
| DeleteServerConfig (name : string)
| StartServer (name request : string)
| StopServer (name : string)
| GetServerStatus (name : string)
| GetSystemStatus
| GetHealthStatus
| GetSystemMetrics
| GetMcpStatistics
| GetGlobalConfig
| UpdateGlobalConfig (config : string)
| Login (credentials : string)
| Logout
| GetCurrentUser
| ChangePassword (data : string)
| CreateApiKey (data : string)
| GetApiKeys
| DeleteApiKey (keyId : Z)
| GetAvailableScopes.

(** The endpoint a method hands to [request]. *)
Definition endpointOf (call : ApiCall) : string :=
  match call with
  | ListServers => "/api/servers/"
  | CreateServer name _ | UpdateServerConfig name _ | DeleteServerConfig name =>
      "/api/config/servers/" +:+ name
  | StartServer name _ => "/api/servers/" +:+ name +:+ "/start"
  | StopServer name => "/api/servers/" +:+ name +:+ "/stop"
  | GetServerStatus name => "/api/servers/" +:+ name +:+ "/status"
  | GetSystemStatus => "/api/status/"
  | GetHealthStatus => "/api/status/health"
  | GetSystemMetrics => "/api/status/metrics"
  | GetMcpStatistics => "/api/status/mcp-statistics"
  | GetGlobalConfig | UpdateGlobalConfig _ => "/api/config/global"
  | Login _ => "/api/auth/login"
  | Logout => "/api/auth/logout"
  | GetCurrentUser => "/api/auth/me"
  | ChangePassword _ => "/api/auth/change-password"
  | CreateApiKey _ | GetApiKeys => "/api/auth/api-keys"
  | DeleteApiKey keyId => "/api/auth/api-keys/" +:+ pretty keyId
  | GetAvailableScopes => "/api/auth/api-keys/scopes"
  end.

Definition withBody (m body : string) : RequestInit :=
  {| method := Some m; headers := ∅; body := Some body |}.

(** The options a method hands to [request]. *)
Definition optionsOf (call : ApiCall) : RequestInit :=
  match call with
  | CreateServer _ config | UpdateServerConfig _ config => withBody "PUT" config
  | DeleteServerConfig _ => withMethod "DELETE"
  | StartServer _ request => withBody "POST" request
  | StopServer _ => withMethod "POST"
  | UpdateGlobalConfig config => withBody "PUT" config
  | Login credentials => withBody "POST" credentials
  | Logout => withMethod "POST"
  | ChangePassword data => withBody "POST" data
  | CreateApiKey data => withBody "POST" data
  | DeleteApiKey _ => withMethod "DELETE"
  | _ => noOptions
  end.

(** The methods that only read. *)
Definition isRead (call : ApiCall) : bool :=
  match call with
  | ListServers | GetServerStatus _ | GetSystemStatus | GetHealthStatus
  | GetSystemMetrics | GetMcpStatistics | GetGlobalConfig | GetCurrentUser
  | GetApiKeys | GetAvailableScopes => true
  | _ => false
  end.

Definition isCreateApiKey (call : ApiCall) : bool :=
  match call with CreateApiKey _ => true | _ => false end.

End ApiClient.

(** ** The authentication provider *)

Module Auth.

(** The identity object returned by the service, kept as parsed. *)
Definition UserResponse : Type := gmap string string.

Record AuthState := {
  user : option UserResponse;
  isAuthenticated : bool;
  isLoading : bool
}.

Inductive AuthAction :=
| SET_USER (payload : option UserResponse)
| SET_LOADING (payload : bool)
| LOGOUT.

Definition authReducer (state : AuthState) (action : AuthAction) : AuthState :=
  match action with
  | SET_USER payload =>
      {| user := payload;
         isAuthenticated := bool_decide (is_Some payload);
         isLoading := false |}
  | SET_LOADING payload =>
      {| user := user state;
         isAuthenticated := isAuthenticated state;
         isLoading := payload |}
  | LOGOUT =>
      {| user := None; isAuthenticated := false; isLoading := false |}
  end.

Definition initialState : AuthState :=
  {| user := None; isAuthenticated := false; isLoading := true |}.

Definition TOKEN_KEY : string := "easymcp_auth_token".

(** The browser, when there is one ([typeof window !== "undefined"]). *)
Record Browser := {
  pathname : string;
  localStorage : gmap string string
}.

(** What the provider reads and writes: the browser, the shared [api]
    client, its own reducer state, and the network events caused so far. *)
Record World := {
  window : option Browser;
  api : ApiClient.t;
  state : AuthState;
  network : list ApiClient.Event
}.

Definition getStoredToken (w : World) : option string :=
  match window w with
  | Some b => localStorage b !! TOKEN_KEY
  | None => None
  end.

Definition removeStoredToken (w : World) : World :=
  match window w with
  | Some b =>
      {| window := Some {| pathname := pathname b;
                           localStorage := delete TOKEN_KEY (localStorage b) |};
         api := api w; state := state w; network := network w |}
  | None => w
  end.

Definition setupAuthInterceptor (token : option string) (w : World) : World :=
  {| window := window w; api := ApiClient.setAuthToken token (api w);
     state := state w; network := network w |}.

Definition dispatch (action : AuthAction) (w : World) : World :=
  {| window := window w; api := api w;
     state := authReducer (state w) action; network := network w |}.

Definition record (evs : list ApiClient.Event) (w : World) : World :=
  {| window := window w; api := api w; state := state w;
     network := (network w ++ evs)%list |}.

(** [api.getCurrentUser()] *)
Definition getCurrentUser (server : ApiClient.Server) (w : World) : ApiClient.Run :=
  ApiClient.request (api w) server (pathname <$> window w)
    "/api/auth/me" ApiClient.noOptions 0 0.

(** The value handed to [.then((user) => ...)], as a reducer payload. *)
Definition asUser (value : Json) : option UserResponse :=
  match value with
  | JObject fields => Some fields
  | _ => None
  end.

(** The boot effect of [AuthProvider] ([useEffect(..., [])]), run to the
    settlement of the identity check. *)
Definition bootEffect (server : ApiClient.Server) (w : World) : World :=
  let token := getStoredToken w in
  if truthy token then
    let w := setupAuthInterceptor token w in
    let run := getCurrentUser server w in
    let w := record run.2 w in
    match run.1 with
    | ApiClient.Resolved value => dispatch (SET_USER (asUser value)) w
    | _ => dispatch LOGOUT (setupAuthInterceptor None (removeStoredToken w))
    end
  else
    dispatch (SET_LOADING false) (setupAuthInterceptor None w).

(** Mounting the provider: [useReducer(authReducer, initialState)] over
    the module-level client, nothing sent yet. *)
Definition mount (window : option Browser) (api : ApiClient.t) : World :=
  {| window := window; api := api; state := initialState; network := [] |}.

Definition boot (server : ApiClient.Server) (window : option Browser)
    (api : ApiClient.t) : World :=
  bootEffect server (mount window api).

(** *** Login, logout and the route guards *)

Definition setStoredToken (token : string) (w : World) : World :=
  match window w with
  | Some b =>
      {| window := Some {| pathname := pathname b;
                           localStorage := <[ TOKEN_KEY := token ]> (localStorage b) |};
         api := api w; state := state w; network := network w |}
  | None => w
  end.

(** [localStorage.getItem(key)], [null] outside a browser. *)
Definition getItem (key : string) (w : World) : option string :=
  match window w with
  | Some b => localStorage b !! key
  | None => None
  end.

(** The identity check of the boot effect, as the effect runs it. *)
Definition identityCheck (server : ApiClient.Server) (window : option Browser)
    (api : ApiClient.t) : ApiClient.Run :=
  let w := mount window api in
  getCurrentUser server (setupAuthInterceptor (getStoredToken w) w).

(** [LoginResponse], as far as the provider reads it. *)
Record LoginResponse := {
  access_token : string;
  login_user : UserResponse
}.

(** The provider with what it reports to: the toasts shown and the query
    cache it clears on logout. *)
Record Session := {
  world : World;
  toasts : list Toast;
  queryCache : gmap (list string) Json
}.

Definition toast (t : Toast) (s : Session) : Session :=
  {| world := world s; toasts := (toasts s ++ [t])%list; queryCache := queryCache s |}.

Definition inWorld (f : World → World) (s : Session) : Session :=
  {| world := f (world s); toasts := toasts s; queryCache := queryCache s |}.

(** [queryClient.clear()] *)
Definition clearCache (s : Session) : Session :=
  {| world := world s; toasts := toasts s; queryCache := ∅ |}.

(** The [username] of a user, as a template literal prints it. *)
Definition username (u : UserResponse) : string :=
  default "undefined" (u !! "username").

(** [loginMutation], from the settlement of [api.login] on. *)
Definition loginSettled (outcome : Settled LoginResponse) (s : Session) : Session :=
  match outcome with
  | Succeeded data =>
      let s := inWorld (setStoredToken (access_token data)) s in
      let s := inWorld (setupAuthInterceptor (Some (access_token data))) s in
      let s := inWorld (dispatch (SET_USER (Some (login_user data)))) s in
      toast (ToastSuccess ("Welcome back, " +:+ username (login_user data) +:+ "!")) s
  | Failed message =>
      toast (ToastError (or_else (Some message) "Login failed")) s
  end.

(** [logoutMutation], from the settlement of [api.logout] on. *)
Definition logoutSettled (outcome : Settled (gmap string string)) (s : Session) : Session :=
  let s := inWorld removeStoredToken s in
  let s := inWorld (setupAuthInterceptor None) s in
  let s := inWorld (dispatch LOGOUT) s in
  let s := clearCache s in
  match outcome with
  | Succeeded _ => toast (ToastSuccess "Logged out successfully") s
  | Failed message => toast (ToastError (or_else (Some message) "Logout failed")) s
  end.

(** [changePasswordMutation], from the settlement of the call on. *)
Definition changePasswordSettled (outcome : Settled (gmap string string))
    (s : Session) : Session :=
  match outcome with
  | Succeeded _ => toast (ToastSuccess "Password changed successfully") s
  | Failed message =>
      toast (ToastError (or_else (Some message) "Failed to change password")) s
  end.

(** What happens to a session after boot. *)
Inductive SessionEvent :=
| LoginSettled (outcome : Settled LoginResponse)
| LogoutSettled (outcome : Settled (gmap string string))
| ChangePasswordSettled (outcome : Settled (gmap string string)).

Definition sessionStep (s : Session) (e : SessionEvent) : Session :=
  match e with
  | LoginSettled outcome => loginSettled outcome s
  | LogoutSettled outcome => logoutSettled outcome s
  | ChangePasswordSettled outcome => changePasswordSettled outcome s
  end.

(** What a route guard shows. *)
Inductive Rendered :=
| Spinner
| Nothing
| Content.

(** [RequireAuth]: what it renders, and where its effect sends the
    router. *)
Definition RequireAuth_render (s : AuthState) : Rendered :=
  if isLoading s then Spinner
  else if negb (isAuthenticated s) then Nothing
  else Content.

Definition RequireAuth_effect (s : AuthState) : option string :=
  if negb (isLoading s) && negb (isAuthenticated s) then Some "/login" else None.

(** [LoginPage]: the same for the login page, whose content is the
    login form. *)
Definition LoginPage_render (s : AuthState) : Rendered :=
  if isLoading s then Spinner
  else if isAuthenticated s then Nothing
  else Content.

Definition LoginPage_effect (s : AuthState) : option string :=
  if isAuthenticated s && negb (isLoading s) then Some "/" else None.

(** A browser on the servers page with a token in storage. *)
Definition returningBrowser : Browser :=
  {| pathname := "/app/servers"; localStorage := {[ TOKEN_KEY := "jwt" ]} |}.

Definition freshSession (window : option Browser) : Session :=
  {| world := mount window ApiClient.api; toasts := []; queryCache := ∅ |}.

End Auth.

(** ** The system query hooks *)

Module SystemQuery.

(** An own property of an options object: absent, or present with a value
    that may be [undefined]. *)
Inductive Own (A : Type) :=
| Absent
| Present (v : option A).
Arguments Absent {A}.
Arguments Present {A} v.

(** Reading [o.p]. *)
Definition read {A} (p : Own A) : option A :=
  match p with
  | Absent => None
  | Present v => v
  end.

(** The property [p] of [{ p: base, ...o }]. *)
Definition spread {A} (o : Own A) (base : Own A) : Own A :=
  match o with
  | Absent => base
  | Present _ => o
  end.

(** [refetchInterval]: a period in milliseconds, or [false]. *)
Inductive Interval :=
| Every (ms : Z)
| Off.

Record UseSystemQueryOptions := {
  enabled : Own bool;
  refetchInterval : Own Interval;
  staleTime : Own Z
}.

(** [{}] *)
Definition noOptions : UseSystemQueryOptions :=
  {| enabled := Absent; refetchInterval := Absent; staleTime := Absent |}.

(** [{ ...base, ...o }] *)
Definition over (o base : UseSystemQueryOptions) : UseSystemQueryOptions :=
  {| enabled := spread (enabled o) (enabled base);
     refetchInterval := spread (refetchInterval o) (refetchInterval base);
     staleTime := spread (staleTime o) (staleTime base) |}.

(** The object handed to [useQuery]. *)
Record QueryOptions := {
  queryKey : list string;
  q_enabled : option bool;
  q_refetchInterval : option Interval;
  q_staleTime : option Z
}.

Definition SYSTEM_STATUS_INTERVAL : Z := 120000.
Definition MCP_STATISTICS_INTERVAL : Z := 30000.

Definition POLLING_INTERVALS : gmap string Z :=
  {[ "SYSTEM_STATUS" := SYSTEM_STATUS_INTERVAL; "SYSTEM_HEALTH" := 120000;
     "SYSTEM_METRICS" := 120000; "MCP_STATISTICS" := MCP_STATISTICS_INTERVAL ]}.

Definition STALE_TIME_DEFAULT : Z := 1000 * 60.
Definition STALE_TIME_SYSTEM_DATA : Z := 1000 * 30.
Definition STALE_TIME_REAL_TIME : Z := 1000 * 10.

(** [POLLING_INTERVALS[key] || POLLING_INTERVALS.SYSTEM_STATUS] *)
Definition baseInterval (key : string) : Z :=
  match POLLING_INTERVALS !! key with
  | Some ms => if ms =? 0 then SYSTEM_STATUS_INTERVAL else ms
  | None => SYSTEM_STATUS_INTERVAL
  end.

(** What the hooks read from their surroundings: [useAuth()] and
    [usePageVisibility()]. *)
Record Ambient := {
  isAuthenticated : bool;
  isVisible : bool
}.

Definition useSystemQuery (key : string) (options : UseSystemQueryOptions)
    (amb : Ambient) : QueryOptions :=
  {| queryKey := ["system"; key];
     q_refetchInterval :=
       read (spread (refetchInterval options)
               (Present (Some (if isVisible amb then Every (baseInterval key) else Off))));
     q_staleTime :=
       read (spread (staleTime options) (Present (Some STALE_TIME_SYSTEM_DATA)));
     q_enabled :=
       read (spread (enabled options)
               (Present (Some (default true (read (enabled options))
                               && isAuthenticated amb)))) |}.

(** A hook parameter [options?: UseSystemQueryOptions]: spreading
    [undefined] adds nothing, and the default parameter turns it into
    [{}]. *)
Definition orEmpty (options : option UseSystemQueryOptions) : UseSystemQueryOptions :=
  default noOptions options.

Definition useSystemStatus (options : option UseSystemQueryOptions) :=
  useSystemQuery "status" (orEmpty options).

Definition useSystemHealth (options : option UseSystemQueryOptions) :=
  useSystemQuery "health" (orEmpty options).

Definition useSystemMetrics (options : option UseSystemQueryOptions) :=
  useSystemQuery "metrics"
    (over (orEmpty options)
       {| enabled := Present (Some true);
          refetchInterval := Absent; staleTime := Absent |}).

Definition useMcpStatistics (options : option UseSystemQueryOptions)
    (amb : Ambient) : QueryOptions :=
  useSystemQuery "mcp-statistics"
    (over (orEmpty options)
       {| enabled := Absent;
          refetchInterval :=
            Present (Some (if isVisible amb then Every MCP_STATISTICS_INTERVAL else Off));
          staleTime := Present (Some STALE_TIME_REAL_TIME) |})
    amb.



(** The query library runs (fetches for) a mounted query unless its
    [enabled] option is [false]. *)
Definition issuesFetch (q : QueryOptions) : bool :=
  match q_enabled q with
  | Some false => false
  | _ => true
  end.

(** The read resources of the console that take caller options. *)
Inductive Resource :=
| SystemStatus
| SystemHealth
| SystemMetrics
| McpStatistics.

Definition useResource (r : Resource) :
    option UseSystemQueryOptions → Ambient → QueryOptions :=
  match r with
  | SystemStatus => useSystemStatus
  | SystemHealth => useSystemHealth
  | SystemMetrics => useSystemMetrics
  | McpStatistics => useMcpStatistics
  end.

(** The period a resource polls with while the page is visible, and the
    age at which its data counts as stale, absent caller options. *)
Definition pollingPeriod (r : Resource) : Z :=
  match r with
  | McpStatistics => MCP_STATISTICS_INTERVAL
  | _ => SYSTEM_STATUS_INTERVAL
  end.

Definition staleAfter (r : Resource) : Z :=
  match r with
  | McpStatistics => STALE_TIME_REAL_TIME
  | _ => STALE_TIME_SYSTEM_DATA
  end.

Definition resourceKey (r : Resource) : string :=
  match r with
  | SystemStatus => "status"
  | SystemHealth => "health"
  | SystemMetrics => "metrics"
  | McpStatistics => "mcp-statistics"
  end.

(** A session that is not authenticated, on a visible page. *)
Definition anonymous : Ambient :=
  {| isAuthenticated := false; isVisible := true |}.


Definition enabledFalse : UseSystemQueryOptions :=
  {| enabled := Present (Some false); refetchInterval := Absent; staleTime := Absent |}.

End SystemQuery.

(** ** Optimistic updates *)

Module Mutations.

(** Calls on the query client that do not by themselves change a cached
    value. *)
Inductive ClientCall :=
| CancelQueries (queryKey : list string)
| InvalidateQueries (queryKey : list string).

Section Optimistic.

Context {TData : Type}.

(** The shared query client: the cached value per key, and the cancel and
    invalidate calls received. *)
Record QueryClient := {
  cache : gmap (list string) (list TData);
  received : list ClientCall
}.

Definition getQueryData (queryKey : list string) (qc : QueryClient) :
    option (list TData) :=
  cache qc !! queryKey.

Definition setQueryData (queryKey : list string) (data : list TData)
    (qc : QueryClient) : QueryClient :=
  {| cache := <[ queryKey := data ]> (cache qc); received := received qc |}.

Definition receive (call : ClientCall) (qc : QueryClient) : QueryClient :=
  {| cache := cache qc; received := (received qc ++ [call])%list |}.

Record OptimisticUpdateConfig := {
  queryKey : list string;
  updateFn : list TData → list TData;
  rollbackFn : option (list TData → list TData)
}.

(** The value [onMutate] returns, handed back to [onError]. *)
Record MutationContext := {
  previousData : option (list TData)
}.

Variable config : OptimisticUpdateConfig.

Definition onMutate (qc : QueryClient) : QueryClient * MutationContext :=
  let qc := receive (CancelQueries (queryKey config)) qc in
  let previousData := getQueryData (queryKey config) qc in
  let qc :=
    match previousData with
    | Some data => setQueryData (queryKey config) (updateFn config data) qc
    | None => qc
    end in
  (qc, {| previousData := previousData |}).

(** [context] is [None] when the mutation passes no context
    ([context?.previousData]). *)
Definition onError (context : option MutationContext) (qc : QueryClient) :
    QueryClient :=
  match context ≫= previousData, rollbackFn config with
  | Some data, Some rollback => setQueryData (queryKey config) (rollback data) qc
  | _, _ => qc
  end.

Definition onSettled (qc : QueryClient) : QueryClient :=
  receive (InvalidateQueries (queryKey config)) qc.

(** A mutation that fails: [onMutate], then whatever else happens to the
    client while the call is in flight ([between]), then [onError]. *)
Definition failedMutation (between : QueryClient → QueryClient)
    (qc : QueryClient) : QueryClient :=
  let '(qc, context) := onMutate qc in
  onError (Some context) (between qc).

End Optimistic.

Arguments QueryClient : clear implicits.
Arguments OptimisticUpdateConfig : clear implicits.
Arguments MutationContext : clear implicits.

(** An optimistic removal of server [b] from the list of server names,
    with a rollback that puts [b] back. *)
Definition removeServerB : OptimisticUpdateConfig string :=
  {| queryKey := ["servers"; "list"];
     updateFn := List.filter (λ s, negb (String.eqb s "b"));
     rollbackFn := Some (λ oldData, (oldData ++ ["b"])%list) |}.

Definition twoServers : QueryClient string :=
  {| cache := {[ ["servers"; "list"] := ["a"; "b"] ]}; received := [] |}.

Definition emptyClient : QueryClient string :=
  {| cache := ∅; received := [] |}.

(** *** The generic mutation *)

(** The caller's hooks, as the calls they receive. *)
Inductive HookCall :=
| OnSuccessCalled
| OnErrorCalled (message : string).

Section Generic.

Context {TData : Type}.

(** The configuration of [useGenericMutation]; a hook is given or not. *)
Record GenericMutationConfig := {
  successMessage : option string;
  errorMessage : option string;
  onSuccessGiven : bool;
  onErrorGiven : bool;
  invalidateQueries : list (list string)
}.

(** What a callback of a mutation does that can be observed from
    outside, one entry per action. *)
Inductive UiEffect :=
| Toasted (t : Toast)
| Invalidated (queryKey : list string)
| Hooked (h : HookCall).

(** What the callbacks of a mutation act on: the query client, and the
    log of what they did (toasts shown, invalidations asked for, hooks
    of the caller called) in the order in which they did it. *)
Record Ui := {
  client : QueryClient TData;
  effects : list UiEffect
}.

Definition show (t : Toast) (ui : Ui) : Ui :=
  {| client := client ui; effects := (effects ui ++ [Toasted t])%list |}.

Definition hook (h : HookCall) (ui : Ui) : Ui :=
  {| client := client ui; effects := (effects ui ++ [Hooked h])%list |}.

Definition invalidateQuery (ui : Ui) (queryKey : list string) : Ui :=
  {| client := receive (InvalidateQueries queryKey) (client ui);
     effects := (effects ui ++ [Invalidated queryKey])%list |}.

Variable config : GenericMutationConfig.

Definition generic_onSuccess (ui : Ui) : Ui :=
  let ui :=
    if truthy (successMessage config)
    then show (ToastSuccess (default "" (successMessage config))) ui
    else ui in
  let ui := fold_left invalidateQuery (invalidateQueries config) ui in
  if onSuccessGiven config then hook OnSuccessCalled ui else ui.

(** [errorMessage || error.message || "Operation failed"] *)
Definition failureText (error : string) : string :=
  or_else (errorMessage config) (or_else (Some error) "Operation failed").

Definition generic_onError (error : string) (ui : Ui) : Ui :=
  let message := failureText error in
  let ui := show (ToastError message) ui in
  if onErrorGiven config then hook (OnErrorCalled error) ui else ui.

(** The callbacks of one mutation, run at its settlement. *)
Definition generic_settled {A} (outcome : Settled A) (ui : Ui) : Ui :=
  match outcome with
  | Succeeded _ => generic_onSuccess ui
  | Failed error => generic_onError error ui
  end.

End Generic.

Arguments GenericMutationConfig : clear implicits.
Arguments Ui : clear implicits.

(** [commonMutations.createServer], without its [mutationFn]. *)
Definition createServer : GenericMutationConfig :=
  {| successMessage := Some "Server created successfully";
     errorMessage := Some "Failed to create server";
     onSuccessGiven := false; onErrorGiven := false;
     invalidateQueries := [["servers"; "list"]] |}.

End Mutations.

(** ** The per-item status poller *)

Module StatusPoller.

Inductive TimerKind :=
| IntervalTimer
| TimeoutTimer.

(** A live platform timer created by the poller: what it is, and the
    identifier its callback closes over. *)
Record Timer := {
  kind : TimerKind;
  identifier : string
}.

(** A cached item, with the polled field already read through [String]. *)
Record Item := {
  name : string;
  statusText : string
}.

(** The poller of one component instance: the platform's live timers
    (handles are positive, as in browsers, hence truthy), the next handle
    the platform gives out, the two [useRef] maps, and the number of
    [invalidateQueries] calls made by ticks. *)
Record t := {
  timers : gmap positive Timer;
  nextHandle : positive;
  pollIntervals : gmap string positive;
  timeoutRefs : gmap string positive;
  invalidations : nat
}.

Definition init (nextHandle : positive) : t :=
  {| timers := ∅; nextHandle := nextHandle;
     pollIntervals := ∅; timeoutRefs := ∅; invalidations := 0 |}.

Definition with_timers (f : gmap positive Timer → gmap positive Timer) (p : t) : t :=
  {| timers := f (timers p); nextHandle := nextHandle p;
     pollIntervals := pollIntervals p; timeoutRefs := timeoutRefs p;
     invalidations := invalidations p |}.

Definition with_pollIntervals (f : gmap string positive → gmap string positive)
    (p : t) : t :=
  {| timers := timers p; nextHandle := nextHandle p;
     pollIntervals := f (pollIntervals p); timeoutRefs := timeoutRefs p;
     invalidations := invalidations p |}.

Definition with_timeoutRefs (f : gmap string positive → gmap string positive)
    (p : t) : t :=
  {| timers := timers p; nextHandle := nextHandle p;
     pollIntervals := pollIntervals p; timeoutRefs := f (timeoutRefs p);
     invalidations := invalidations p |}.

(** [clearInterval(h)] and [clearTimeout(h)]: the timer, if live, is
    no more. *)
Definition clearTimer (h : positive) (p : t) : t :=
  with_timers (delete h) p.

(** [setInterval(cb, ...)] and [setTimeout(cb, ...)]: a new live timer
    under a fresh handle. *)
Definition setTimer (k : TimerKind) (id : string) (p : t) : positive * t :=
  let h := nextHandle p in
  (h, {| timers := <[ h := {| kind := k; identifier := id |} ]> (timers p);
         nextHandle := Pos.succ h;
         pollIntervals := pollIntervals p; timeoutRefs := timeoutRefs p;
         invalidations := invalidations p |}).

Definition stopPolling (id : string) (p : t) : t :=
  let p :=
    match pollIntervals p !! id with
    | Some interval => with_pollIntervals (delete id) (clearTimer interval p)
    | None => p
    end in
  match timeoutRefs p !! id with
  | Some timeout => with_timeoutRefs (delete id) (clearTimer timeout p)
  | None => p
  end.

Definition startPolling (id : string) (p : t) : t :=
  let p := stopPolling id p in
  let '(pollInterval, p) := setTimer IntervalTimer id p in
  let p := with_pollIntervals <[ id := pollInterval ]> p in
  let '(timeoutRef, p) := setTimer TimeoutTimer id p in
  with_timeoutRefs <[ id := timeoutRef ]> p.

(** [map.forEach((h) => clear(h))] *)
Definition clearEach (m : gmap string positive) (p : t) : t :=
  map_fold (λ _ h p, clearTimer h p) p m.

Definition stopAllPolling (p : t) : t :=
  let p := with_pollIntervals (λ _, ∅) (clearEach (pollIntervals p) p) in
  with_timeoutRefs (λ _, ∅) (clearEach (timeoutRefs p) p).

Definition invalidate (p : t) : t :=
  {| timers := timers p; nextHandle := nextHandle p;
     pollIntervals := pollIntervals p; timeoutRefs := timeoutRefs p;
     invalidations := S (invalidations p) |}.

(** The interval callback for [id]; [stopCondition] answers [None] when
    it throws, [currentData] is what the cache holds at the tick. *)
Definition tick (stopCondition : string → option bool)
    (currentData : option (list Item)) (id : string) (p : t) : t :=
  match currentData with
  | None => p
  | Some items =>
      match List.find (λ item, String.eqb (name item) id) items with
      | None => p
      | Some item =>
          match stopCondition (statusText item) with
          | Some true => stopPolling id p
          | Some false => invalidate p
          | None => stopPolling id p   (* the [catch] clause *)
          end
      end
  end.

(** What can happen to a poller: the three calls of its interface, and a
    live timer of it coming due. *)
Inductive Step :=
| StartPolling (id : string)
| StopPolling (id : string)
| StopAllPolling
| IntervalDue (h : positive) (currentData : option (list Item))
| TimeoutDue (h : positive).

Definition step (stopCondition : string → option bool) (p : t) (s : Step) : t :=
  match s with
  | StartPolling id => startPolling id p
  | StopPolling id => stopPolling id p
  | StopAllPolling => stopAllPolling p
  | IntervalDue h currentData =>
      match timers p !! h with
      | Some {| kind := IntervalTimer; identifier := id |} =>
          tick stopCondition currentData id p
      | _ => p
      end
  | TimeoutDue h =>
      match timers p !! h with
      | Some {| kind := TimeoutTimer; identifier := id |} =>
          (* a one-shot timer is spent once it fires *)
          stopPolling id (clearTimer h p)
      | _ => p
      end
  end.

Definition run (stopCondition : string → option bool) (steps : list Step) (p : t) : t :=
  fold_left (step stopCondition) steps p.

(** [h] is a live timer of kind [k] whose callback is for [id]. *)
Definition live (k : TimerKind) (id : string) (h : positive) (p : t) : Prop :=
  timers p !! h = Some {| kind := k; identifier := id |}.

(** Whether a timer is of kind [k] and for [id]. *)
Definition isFor (k : TimerKind) (id : string) (tm : Timer) : bool :=
  match kind tm, k with
  | IntervalTimer, IntervalTimer | TimeoutTimer, TimeoutTimer =>
      String.eqb (identifier tm) id
  | _, _ => false
  end.

(** The number of live timers of kind [k] for [id]. *)
Definition liveCount (k : TimerKind) (id : string) (p : t) : nat :=
  size (filter (λ ht : positive * Timer, isFor k id ht.2 = true) (timers p)).

(** The invariant of the poller: every live timer is the one registered
    for its identifier in the map of its kind, and handles not yet given
    out are not live. *)
Record Inv (p : t) : Prop := {
  inv_interval : ∀ h id, live IntervalTimer id h p → pollIntervals p !! id = Some h;
  inv_timeout : ∀ h id, live TimeoutTimer id h p → timeoutRefs p !! id = Some h;
  inv_fresh : ∀ h tm, timers p !! h = Some tm → (h < nextHandle p)%positive
}.

(** The map of a kind of timer. *)
Definition registry (k : TimerKind) (p : t) : gmap string positive :=
  match k with
  | IntervalTimer => pollIntervals p
  | TimeoutTimer => timeoutRefs p
  end.

(** Every registered handle is a live timer of its kind and key. *)
Record Registered (p : t) : Prop := {
  reg_interval : ∀ id h, pollIntervals p !! id = Some h → live IntervalTimer id h p;
  reg_timeout : ∀ id h, timeoutRefs p !! id = Some h → live TimeoutTimer id h p
}.

(** A key is in one map exactly when it is in the other. *)
Definition Paired (p : t) : Prop :=
  ∀ id, is_Some (pollIntervals p !! id) ↔ is_Some (timeoutRefs p !! id).

(** What holds of every poller a component instance can reach. *)
Definition Good (p : t) : Prop := Inv p ∧ Registered p ∧ Paired p.

(** The status a tick reads for [id] from what the cache holds. *)
Definition polledStatus (currentData : option (list Item)) (id : string) : option string :=
  match currentData with
  | Some items =>
      statusText <$> List.find (λ item, String.eqb (name item) id) items
  | None => None
  end.

(** Whether a tick that read this status tears the registration down:
    the stop condition holds of it, or throws. *)
Definition finishes (stopCondition : string → option bool) (status : option string) : bool :=
  match status with
  | Some st => match stopCondition st with Some false => false | _ => true end
  | None => false
  end.

End StatusPoller.

(** ** The error helpers *)

Module Errors.

(** A caught value of type [unknown]: an object, which may be an
    instance of [Error], with its own string-valued properties; or
    anything that is not an object ([null], [undefined], a string, a
    number). *)
Inductive Unknown :=
| UObject (isError : bool) (props : gmap string string)
| UOther.

(** [key in error], for the keys the guards ask about: an own property
    or, on an instance of [Error], the [message] that every instance
    has, if only from its prototype. *)
Definition hasProp (key : string) (e : Unknown) : bool :=
  match e with
  | UObject isError props =>
      bool_decide (is_Some (props !! key)) || (isError && String.eqb key "message")
  | UOther => false
  end.

(** Reading the property [key] of [error]; the prototype of [Error]
    holds the empty message. *)
Definition prop (key : string) (e : Unknown) : option string :=
  match e with
  | UObject isError props =>
      match props !! key with
      | Some v => Some v
      | None => if isError && String.eqb key "message" then Some "" else None
      end
  | UOther => None
  end.

Definition isApiError (e : Unknown) : bool :=
  match e with
  | UObject _ _ => hasProp "code" e || hasProp "message" e || hasProp "detail" e
  | UOther => false
  end.

Definition isValidationError (e : Unknown) : bool :=
  isApiError e && hasProp "field" e.

Definition isNetworkError (e : Unknown) : bool :=
  isApiError e && bool_decide (prop "code" e = Some "NETWORK_ERROR").

Definition getErrorMessage (e : Unknown) : string :=
  if isValidationError e then
    or_else (prop "detail" e)
      (or_else (prop "message" e)
         ("Validation error for field: " +:+ default "undefined" (prop "field" e)))
  else if isNetworkError e then
    "Network connection failed. Please check your internet connection."
  else if isApiError e then
    or_else (prop "detail" e)
      (or_else (prop "message" e) "An unexpected error occurred")
  else
    match e with
    | UObject true _ => default "" (prop "message" e)
    | _ => "An unexpected error occurred"
    end.

Definition getErrorCode (e : Unknown) : option string :=
  if isApiError e then prop "code" e else None.

(** What [request] rejects with, seen as a caught value. *)
Definition ofError (message : string) : Unknown :=
  UObject true {[ "message" := message ]}.

End Errors.

(** * Properties *)

(** ** The transport client *)

Module ApiClientFacts.

Import ApiClient.

(** *** Credentials *)

Lemma setAuthToken_fields token c :
  authToken (setAuthToken token c) = token
  ∧ apiKey (setAuthToken token c) = (if truthy token then None else apiKey c).
Proof. unfold setAuthToken. by destruct (truthy token). Qed.

Lemma setApiKey_fields key c :
  apiKey (setApiKey key c) = key
  ∧ authToken (setApiKey key c) = (if truthy key then None else authToken c).
Proof. unfold setApiKey. by destruct (truthy key). Qed.

Lemma call_keeps_one_armed c op :
  bothArmed c = false → bothArmed (call c op) = false.
Proof.
  unfold bothArmed. intros Hc.
  destruct op as [token | key]; simpl.
  - destruct (setAuthToken_fields token c) as [-> ->].
    destruct (truthy token); [done | by rewrite andb_false_l].
  - destruct (setApiKey_fields key c) as [-> ->].
    destruct (truthy key); [done | by rewrite andb_false_r].
Qed.

Lemma calls_keep_one_armed ops c :
  bothArmed c = false → bothArmed (calls ops c) = false.
Proof.
  unfold calls. revert c.
  induction ops as [| op ops IH]; intros c Hc; simpl; [done |].
  by apply IH, call_keeps_one_armed.
Qed.

(** C5, as stated, fails: a static key followed by the empty bearer token
    leaves both fields non-null. *)
Lemma credentials_both_non_null :
  ¬ (∀ ops : list CredentialCall,
       authToken (calls ops api) = None ∨ apiKey (calls ops api) = None).
Proof.
  intros H.
  destruct (H [SetApiKey (Some "k"); SetAuthToken (Some "")]) as [H' | H'];
    vm_compute in H'; discriminate.
Qed.

(** C5, amended: after any sequence of [setAuthToken] and [setApiKey]
    calls on a new client at most one credential is armed, that is
    non-null and non-empty; setting an armed key clears the bearer token
    and setting an armed bearer token clears the key, while [null] and the
    empty string leave the other credential as it was. *)
Theorem credentials_at_most_one_armed :
  ∀ (base : string) (cfg : RetryConfig) (ops : list CredentialCall)
    (c : t) (v : option string),
    bothArmed (calls ops (new base cfg)) = false
    ∧ authToken (setApiKey v c) = (if truthy v then None else authToken c)
    ∧ apiKey (setApiKey v c) = v
    ∧ apiKey (setAuthToken v c) = (if truthy v then None else apiKey c)
    ∧ authToken (setAuthToken v c) = v.
Proof.
  intros base cfg ops c v.
  destruct (setAuthToken_fields v c) as [Ha1 Ha2].
  destruct (setApiKey_fields v c) as [Hk1 Hk2].
  split; [by apply calls_keep_one_armed |].
  by repeat split.
Qed.

(** *** The error classifier *)

Lemma parseErrorResponse_canned r message :
  cannedMessage r = Some message → parseErrorResponse r = message.
Proof.
  unfold cannedMessage, parseErrorResponse, parseErrorResponse_try,
    parseErrorResponse_catch, isJson.
  destruct (json r); repeat case_match; naive_solver.
Qed.

Lemma parseErrorResponse_body r :
  cannedMessage r = None →
  parseErrorResponse r = default (statusLine r) (bodyMessage r).
Proof.
  unfold cannedMessage, bodyMessage, parseErrorResponse, parseErrorResponse_try,
    parseErrorResponse_catch, isJson.
  destruct (json r) as [| | e]; repeat case_match; try naive_solver.
  all: simplify_eq; simpl; try done.
  all: by match goal with H : truthy ?x = true |- _ => destruct x end.
Qed.

(** C6, as stated, fails: a 401 whose body carries a [detail] gets the
    canned message, where the documented order gives the detail. *)
Lemma detail_loses_to_canned_message :
  let r := {| status := 401; statusText := "Unauthorized";
              json := JObject {[ "detail" := "Token expired" ]} |} in
  messageInDocumentedOrder r = "Token expired"
  ∧ parseErrorResponse r = "Authentication failed. Please log in again."
  ∧ parseErrorResponse r ≠ messageInDocumentedOrder r.
Proof. vm_compute. by repeat split. Qed.

(** C6, amended: the message of a failed response is the canned message
    of its status when the status is 401, 403 or 500, whatever the body
    carries; for any other status it is the [detail] field, else the
    [message] field, else a message made of the [code] field and the
    status text, else the raw status line. *)
Theorem parseErrorResponse_order :
  ∀ r : Response,
    parseErrorResponse r =
      match cannedMessage r with
      | Some message => message
      | None => default (statusLine r) (bodyMessage r)
      end.
Proof.
  intros r. destruct (cannedMessage r) as [message |] eqn:Hc.
  - by apply parseErrorResponse_canned.
  - by apply parseErrorResponse_body.
Qed.

(** *** One activation of [request] *)

Section RequestFacts.

Variable c : t.
Variable server : Server.
Variable window : option string.
Variable endpoint : string.
Variable options : RequestInit.

Local Abbreviation request := (request c server window endpoint options).
Local Abbreviation request_body := (request_body c server window endpoint options).
Local Abbreviation thisFetch := (thisFetch c endpoint options).
Local Abbreviation backoff := (backoff c).
Local Abbreviation attempts := (attempts c endpoint options).
Local Abbreviation maxRetries := (maxRetries (retryConfig c)).

Lemma shouldRetry_guard retryCount response :
  shouldRetry c endpoint options retryCount response = true →
  (retryCount <? maxRetries) = true.
Proof. unfold shouldRetry. intros H. by repeat apply andb_prop in H as [H _]. Qed.

(** The body only calls itself under the guard [retryCount < maxRetries]. *)
Lemma request_body_ext again again' retryCount n :
  (retryCount < maxRetries →
   again (retryCount + 1) (S n) = again' (retryCount + 1) (S n)) →
  request_body again retryCount n = request_body again' retryCount n.
Proof.
  intros Hext. unfold ApiClient.request_body.
  destruct (retryCount <? maxRetries) eqn:Hlt.
  - apply Z.ltb_lt in Hlt. by rewrite (Hext Hlt).
  - destruct (server n) as [[] | response]; try done.
    destruct (negb (ok response)); [| done].
    destruct (shouldRetry c endpoint options retryCount response) eqn:Hs; [| done].
    apply shouldRetry_guard in Hs. congruence.
Qed.

(** The recursive equation of the source function. *)
Lemma request_unfold retryCount n :
  request retryCount n = request_body request retryCount n.
Proof.
  unfold ApiClient.request at 1. simpl.
  apply request_body_ext. intros Hlt. unfold ApiClient.request.
  by replace (Z.to_nat (maxRetries - retryCount))
    with (S (Z.to_nat (maxRetries - (retryCount + 1)))) by lia.
Qed.

Lemma emit_settled evs (run : Run) :
  run.1 ≠ OutOfFuel → (emit evs run).1 ≠ OutOfFuel.
Proof. done. Qed.

(** The promise always settles: the fuel of [request] is never used up. *)
Lemma request_settles retryCount n :
  (request retryCount n).1 ≠ OutOfFuel.
Proof.
  remember (Z.to_nat (maxRetries - retryCount)) as k eqn:Hk.
  revert retryCount n Hk.
  induction k as [| k IH]; intros retryCount n Hk; rewrite request_unfold;
    unfold ApiClient.request_body; apply emit_settled.
  - replace (retryCount <? maxRetries) with false by (symmetry; apply Z.ltb_ge; lia).
    destruct (server n) as [[] | response]; try done.
    destruct (negb (ok response)).
    + destruct (shouldRetry c endpoint options retryCount response) eqn:Hs.
      * apply shouldRetry_guard, Z.ltb_lt in Hs. lia.
      * by apply emit_settled.
    + destruct (status response =? 204); [done |]. by destruct (json response).
  - assert (Hrec : (request (retryCount + 1) (S n)).1 ≠ OutOfFuel)
      by (apply IH; lia).
    destruct (server n) as [[] | response]; try done.
    + by destruct (retryCount <? maxRetries); [apply emit_settled |].
    + destruct (negb (ok response)).
      * destruct (shouldRetry c endpoint options retryCount response);
          repeat apply emit_settled; [done |].
        by destruct (retryCount <? maxRetries); [apply emit_settled |].
      * destruct (status response =? 204); [done |]. by destruct (json response).
Qed.

Lemma emit_emit evs evs' (run : Run) :
  emit evs (emit evs' run) = emit (evs ++ evs')%list run.
Proof. unfold emit. simpl. by rewrite app_assoc. Qed.

Lemma emit_nil (run : Run) : emit [] run = run.
Proof. by destruct run. Qed.

(** A failed response met while retries remain is followed by a wait of
    [retryDelay * (retryCount + 1)] and a further attempt: through the
    retry decision when it holds, through the [catch] clause, which
    receives the error the function has just thrown, when it does not. *)
Lemma failure_then_retry retryCount n response :
  server n = FetchResponds response →
  ok response = false →
  retryCount < maxRetries →
  request retryCount n =
    emit (thisFetch ::
            (if shouldRetry c endpoint options retryCount response then []
             else redirectOn401 window response) ++ [backoff retryCount])%list
         (request (retryCount + 1) (S n)).
Proof.
  intros Hsrv Hok Hlt. rewrite request_unfold at 1.
  unfold ApiClient.request_body. rewrite Hsrv, Hok. simpl negb. cbv iota.
  apply Z.ltb_lt in Hlt. rewrite Hlt.
  destruct (shouldRetry c endpoint options retryCount response).
  - by rewrite emit_emit.
  - by rewrite !emit_emit.
Qed.

(** A failed response met when no retry remains is surfaced as one
    [Error] carrying the classified message. *)
Lemma failure_surfaces retryCount n response :
  server n = FetchResponds response →
  ok response = false →
  maxRetries ≤ retryCount →
  request retryCount n =
    (Rejected (ThrownError (parseErrorResponse response)),
     thisFetch :: redirectOn401 window response).
Proof.
  intros Hsrv Hok Hge. rewrite request_unfold.
  unfold ApiClient.request_body. rewrite Hsrv, Hok. simpl negb. cbv iota.
  apply Z.ltb_ge in Hge.
  replace (shouldRetry c endpoint options retryCount response) with false
    by (unfold shouldRetry; by rewrite Hge).
  rewrite Hge. unfold emit. simpl. by rewrite app_nil_r.
Qed.

(** In particular a status outside the retryable set does not stop the
    retries: the decision is negative, the error is thrown, caught, and
    the request made again. *)
Lemma not_retryable_yet_retried retryCount n response :
  server n = FetchResponds response →
  ok response = false →
  includes_num (retryStatuses (retryConfig c)) (status response) = false →
  retryCount < maxRetries →
  shouldRetry c endpoint options retryCount response = false
  ∧ request retryCount n =
      emit (thisFetch :: redirectOn401 window response ++ [backoff retryCount])%list
           (request (retryCount + 1) (S n)).
Proof.
  intros Hsrv Hok Hnot Hlt.
  assert (Hs : shouldRetry c endpoint options retryCount response = false).
  { unfold shouldRetry. rewrite Hnot. by rewrite andb_false_r. }
  split; [done |].
  by rewrite (failure_then_retry _ _ response Hsrv Hok Hlt), Hs.
Qed.

Lemma transient_not_ok response :
  isTransient (status response) = true → ok response = false.
Proof.
  unfold isTransient, includes_num, ok. simpl. intros H.
  repeat (apply orb_prop in H as [H | H];
          [apply Z.eqb_eq in H as ->; reflexivity |]).
  done.
Qed.

Lemma transient_not_401 response :
  isTransient (status response) = true → redirectOn401 window response = [].
Proof.
  unfold isTransient, includes_num, redirectOn401. simpl. intros H.
  repeat (apply orb_prop in H as [H | H];
          [apply Z.eqb_eq in H as ->; reflexivity |]).
  done.
Qed.

(** A transient failure met while retries remain: one fetch, one wait,
    one more attempt. *)
Lemma transient_step retryCount n :
  transientFailure (server n) = true →
  retryCount < maxRetries →
  request retryCount n =
    emit [thisFetch; backoff retryCount] (request (retryCount + 1) (S n)).
Proof.
  intros Ht Hlt. destruct (server n) as [| response] eqn:Hsrv; [done |].
  simpl in Ht.
  rewrite (failure_then_retry _ _ response Hsrv (transient_not_ok _ Ht) Hlt).
  rewrite (transient_not_401 _ Ht). by destruct (shouldRetry _ _ _ _ _).
Qed.

Lemma transient_run k : ∀ (retryCount : Z) (n : nat),
  retryCount + Z.of_nat k ≤ maxRetries →
  (∀ i, (i < k)%nat → transientFailure (server (n + i)%nat) = true) →
  request retryCount n =
    emit (attempts k retryCount) (request (retryCount + Z.of_nat k) (n + k)%nat).
Proof.
  induction k as [| k IH]; intros retryCount n Hle Hall.
  - simpl. rewrite emit_nil. f_equal; lia.
  - rewrite transient_step; [| | lia].
    2:{ specialize (Hall O). rewrite Nat.add_0_r in Hall. apply Hall. lia. }
    rewrite (IH (retryCount + 1) (S n)); [| lia |].
    2:{ intros i Hi. replace (S n + i)%nat with (n + S i)%nat by lia.
        apply Hall. lia. }
    rewrite emit_emit.
    replace (retryCount + 1 + Z.of_nat k) with (retryCount + Z.of_nat (S k)) by lia.
    by replace (S n + k)%nat with (n + S k)%nat by lia.
Qed.

Lemma delays_attempts k : ∀ retryCount,
  delays (attempts k retryCount) =
    List.map (λ i, retryDelay (retryConfig c) * (retryCount + Z.of_nat i))
      (seq 1 k).
Proof.
  induction k as [| k IH]; intros retryCount; [done |].
  change (delays (attempts (S k) retryCount))
    with (retryDelay (retryConfig c) * (retryCount + 1)
          :: delays (attempts k (retryCount + 1))).
  rewrite IH. change (seq 1 (S k)) with (1%nat :: seq 2 k).
  rewrite <- (seq_shift k 1). cbn [List.map]. rewrite List.map_map.
  f_equal. apply List.map_ext. intros i. f_equal. lia.
Qed.

Lemma fetchCount_attempts k : ∀ retryCount,
  fetchCount (attempts k retryCount) = k.
Proof.
  unfold fetchCount. induction k as [| k IH]; intros retryCount; [done |].
  simpl. by rewrite IH.
Qed.

(** C1, amended: for a non-idempotent request (POST, PUT, PATCH or
    DELETE) that receives a 500 response while retries remain and 500 is
    a retryable status, the retry decision holds if and only if the
    endpoint is not [/api/auth/api-keys], the one path excluded from
    retries on server errors; for every other path the request is made
    again after a wait of [retryDelay * (retryCount + 1)]. *)
Theorem server_error_retried_unless_excluded retryCount n response :
  isNonIdempotent options = true →
  server n = FetchResponds response →
  status response = 500 →
  retryCount < maxRetries →
  includes_num (retryStatuses (retryConfig c)) 500 = true →
  shouldRetry c endpoint options retryCount response
    = negb (String.eqb endpoint "/api/auth/api-keys")
  ∧ (endpoint ≠ "/api/auth/api-keys" →
     request retryCount n =
       emit [thisFetch; backoff retryCount] (request (retryCount + 1) (S n))).
Proof.
  intros Hnon Hsrv Hst Hlt Hin.
  assert (Hs : shouldRetry c endpoint options retryCount response
               = negb (String.eqb endpoint "/api/auth/api-keys")).
  { unfold shouldRetry, shouldRetryOnServerError.
    rewrite Hst, Hin, Hnon. apply Z.ltb_lt in Hlt. by rewrite Hlt. }
  split; [done |]. intros Hne.
  rewrite (failure_then_retry _ _ response Hsrv); [| by unfold ok; rewrite Hst | done].
  rewrite Hs. apply String.eqb_neq in Hne. by rewrite Hne.
Qed.

(** C3: a run of [k] responses with status 408, 429, 502, 503 or 504,
    met while the retry counter stays within [maxRetries], is [k]
    attempts each followed by a wait; the wait before retry attempt [i]
    is [retryDelay * i]; and when such a response meets the counter at
    [maxRetries], its classified message is surfaced as the error, with
    no further attempt. *)
Theorem transient_failures_retried_linearly (k : nat) (retryCount : Z) (n : nat) :
  retryCount + Z.of_nat k ≤ maxRetries →
  (∀ i, (i < k)%nat → transientFailure (server (n + i)%nat) = true) →
  request retryCount n =
    emit (attempts k retryCount) (request (retryCount + Z.of_nat k) (n + k)%nat)
  ∧ fetchCount (attempts k retryCount) = k
  ∧ delays (attempts k retryCount) =
      List.map (λ i, retryDelay (retryConfig c) * (retryCount + Z.of_nat i))
        (seq 1 k)
  ∧ (∀ response,
       retryCount + Z.of_nat k = maxRetries →
       server (n + k)%nat = FetchResponds response →
       isTransient (status response) = true →
       request (retryCount + Z.of_nat k) (n + k)%nat =
         (Rejected (ThrownError (parseErrorResponse response)), [thisFetch])).
Proof.
  intros Hle Hall. split; [by apply transient_run |].
  split; [apply fetchCount_attempts |].
  split; [apply delays_attempts |].
  intros response Heq Hsrv Ht.
  rewrite (failure_surfaces _ _ response Hsrv (transient_not_ok _ Ht)); [| lia].
  by rewrite (transient_not_401 _ Ht).
Qed.

End RequestFacts.

(** *** Runs of the production client *)

(** C1, as stated, fails: a POST to a path other than
    [/api/auth/api-keys] that receives a 500 is made again. *)
Lemma server_error_retried_off_the_listed_path :
  ¬ (∀ (endpoint m : string),
       includes_string ["POST"; "PUT"; "PATCH"; "DELETE"] m = true →
       retried (request api (answeringThen serverError success) None
                  endpoint (withMethod m) 0 0) = true
       ↔ endpoint = "/api/auth/api-keys").
Proof.
  intros H.
  destruct (H "/api/servers/a/start" "POST" eq_refl) as [H' _].
  by specialize (H' eq_refl).
Qed.

Lemma server_error_retried_witness :
  let server := answeringThen serverError success in
  let endpoint := "/api/servers/a/start" in
  let options := withMethod "POST" in
  shouldRetry api endpoint options 0 serverError = true
  ∧ request api server None endpoint options 0 0 =
      emit [thisFetch api endpoint options; backoff api 0]
        (request api server None endpoint options 1 1).
Proof.
  intros server endpoint options.
  destruct (server_error_retried_unless_excluded api server None endpoint options
              0 0 serverError) as [Hs Hr]; try reflexivity.
  split; [exact Hs | by apply Hr].
Defined.

(** C2 at a failing input: a GET answered 404 every time is fetched four
    times, with waits of one, two and three seconds in between, before
    the error reaches the caller. *)
Lemma not_found_is_fetched_four_times :
  let run := request api (answering notFound) (Some "/app/servers")
               "/api/servers/" noOptions 0 0 in
  includes_num (retryStatuses (retryConfig api)) (status notFound) = false
  ∧ fetchCount run.2 = 4%nat
  ∧ delays run.2 = [1000; 2000; 3000]
  ∧ run.1 = Rejected (ThrownError "API request failed: Not Found (404)").
Proof. vm_compute. by repeat split. Qed.

(** The same happens on the excluded path itself: the retry decision is
    negative there, yet the thrown error is caught and the POST is made
    again. *)
Example excluded_path_is_fetched_again :
  let run := request api (answering serverError) None
               "/api/auth/api-keys" (withMethod "POST") 0 0 in
  shouldRetry api "/api/auth/api-keys" (withMethod "POST") 0 serverError = false
  ∧ fetchCount run.2 = 4%nat
  ∧ delays run.2 = [1000; 2000; 3000].
Proof. vm_compute. by repeat split. Qed.

Lemma transient_failures_witness :
  let server := answering unavailable in
  let run := request api server None "/api/status/" noOptions 0 0 in
  run = emit (attempts api "/api/status/" noOptions 3 0)
          (Rejected (ThrownError (parseErrorResponse unavailable)),
           [thisFetch api "/api/status/" noOptions])
  ∧ delays (attempts api "/api/status/" noOptions 3 0) = [1000; 2000; 3000].
Proof.
  intros server run.
  destruct (transient_failures_retried_linearly api server None "/api/status/"
              noOptions 3 0 0) as (Hrun & _ & Hdelays & Hlast).
  - vm_compute. discriminate.
  - intros i _. reflexivity.
  - split; [| exact Hdelays].
    unfold run. rewrite Hrun.
    by rewrite (Hlast unavailable eq_refl eq_refl eq_refl).
Defined.

(** *** Every run of [request] *)

Section RunFacts.

Variable c : t.
Variable server : Server.
Variable window : option string.
Variable endpoint : string.
Variable options : RequestInit.

Local Abbreviation request := (request c server window endpoint options).
Local Abbreviation thisFetch := (thisFetch c endpoint options).
Local Abbreviation backoff := (backoff c).
Local Abbreviation attempts := (attempts c endpoint options).
Local Abbreviation maxRetries := (maxRetries (retryConfig c)).

Lemma redirectOn401_only n response :
  server n = FetchResponds response →
  redirectOnly window server n (redirectOn401 window response).
Proof.
  intros Hsrv. unfold redirectOnly, redirectOn401.
  destruct (status response =? 401) eqn:Hst; [| by left].
  apply Z.eqb_eq in Hst.
  destruct window as [pathname |]; [| by left].
  destruct (includes_str pathname "/login") eqn:Hp; simpl; [by left |].
  right. eauto 10.
Qed.

(** An activation of [request] either ends after its fetch (and maybe
    the redirect), or, with retries left, waits and goes on as the next
    activation does. *)
Lemma request_cases retryCount n :
  (∃ result evs,
     request retryCount n = (result, thisFetch :: evs)
     ∧ wellSettled result = true
     ∧ redirectOnly window server n evs)
  ∨ (retryCount < maxRetries
     ∧ ∃ evs,
         redirectOnly window server n evs
         ∧ request retryCount n =
             emit (thisFetch :: evs ++ [backoff retryCount])%list
                  (request (retryCount + 1) (S n))).
Proof.
  pose proof (request_unfold c server window endpoint options retryCount n) as Hu.
  unfold request_body in Hu.
  destruct (server n) as [error | response] eqn:Hsrv.
  - destruct error as [message | s | message |];
      try (left; eexists _, []; split; [exact Hu | split; [done | by left]]).
    destruct (retryCount <? maxRetries) eqn:Hlt.
    + right. apply Z.ltb_lt in Hlt. split; [done |].
      exists []. split; [by left |]. by rewrite Hu, emit_emit.
    + left. eexists _, []. split; [exact Hu | split; [done | by left]].
  - destruct (negb (ok response)).
    + destruct (shouldRetry c endpoint options retryCount response) eqn:Hs.
      * right. apply shouldRetry_guard, Z.ltb_lt in Hs. split; [done |].
        exists []. split; [by left |]. by rewrite Hu, emit_emit.
      * destruct (retryCount <? maxRetries) eqn:Hlt.
        -- right. apply Z.ltb_lt in Hlt. split; [done |].
           exists (redirectOn401 window response).
           split; [by apply redirectOn401_only |]. by rewrite Hu, !emit_emit.
        -- left.
           exists (Rejected (ThrownError (parseErrorResponse response))),
             (redirectOn401 window response).
           split; [| split; [done | by apply redirectOn401_only]].
           rewrite Hu. unfold emit. simpl. by rewrite app_nil_r.
    + left. eexists (successResult response), [].
      split; [| split; [| by left]].
      * rewrite Hu. unfold successResult.
        destruct (status response =? 204); [done |]. by destruct (json response).
      * unfold successResult.
        destruct (status response =? 204); [done |]. by destruct (json response).
Qed.

Lemma fetchCount_app tr tr' :
  fetchCount (tr ++ tr')%list = (fetchCount tr + fetchCount tr')%nat.
Proof. unfold fetchCount. by rewrite List.filter_app, length_app. Qed.

Lemma delays_app tr tr' : delays (tr ++ tr')%list = (delays tr ++ delays tr')%list.
Proof. apply omap_app. Qed.

Lemma redirects_app tr tr' :
  redirects (tr ++ tr')%list = (redirects tr ++ redirects tr')%list.
Proof. apply omap_app. Qed.

Lemma redirectOnly_silent n evs :
  redirectOnly window server n evs → fetchCount evs = 0%nat ∧ delays evs = [].
Proof. by intros [-> | (-> & _)]. Qed.

Lemma request_fetches_once retryCount n :
  (1 ≤ fetchCount (request retryCount n).2)%nat.
Proof.
  destruct (request_cases retryCount n)
    as [(result & evs & -> & _) | (_ & evs & _ & ->)];
    unfold emit; cbn [snd].
  - change (thisFetch :: evs) with ([thisFetch] ++ evs)%list.
    rewrite fetchCount_app. change (fetchCount [thisFetch]) with 1%nat. lia.
  - change ((thisFetch :: evs ++ [backoff retryCount])
            ++ (request (retryCount + 1) (S n)).2)%list
      with ([thisFetch] ++ (evs ++ [backoff retryCount])
            ++ (request (retryCount + 1) (S n)).2)%list.
    rewrite fetchCount_app. change (fetchCount [thisFetch]) with 1%nat. lia.
Qed.

(** X1: whatever the service does, a call of [request] makes at least
    one fetch and at most one more than the retries left, and the waits
    between its fetches are [retryDelay] times the number of the retry:
    linear, for every kind of failure. *)
Theorem request_fetches_and_waits retryCount n :
  (1 ≤ fetchCount (request retryCount n).2
   ≤ S (Z.to_nat (maxRetries - retryCount)))%nat
  ∧ delays (request retryCount n).2 =
      List.map (λ i, retryDelay (retryConfig c) * (retryCount + Z.of_nat i))
        (seq 1 (fetchCount (request retryCount n).2 - 1)).
Proof.
  remember (Z.to_nat (maxRetries - retryCount)) as k eqn:Hk.
  revert retryCount n Hk.
  induction k as [| k IH]; intros retryCount n Hk;
    destruct (request_cases retryCount n)
      as [(result & evs & -> & _ & Hevs) | (Hlt & evs & Hevs & ->)];
    try lia; destruct (redirectOnly_silent _ _ Hevs) as [Hf Hd].
  - cbn [snd]. change (thisFetch :: evs) with ([thisFetch] ++ evs)%list.
    rewrite fetchCount_app, delays_app, Hf, Hd. simpl. split; [lia | done].
  - cbn [snd]. change (thisFetch :: evs) with ([thisFetch] ++ evs)%list.
    rewrite fetchCount_app, delays_app, Hf, Hd. simpl. split; [lia | done].
  - destruct (IH (retryCount + 1) (S n)) as [Hbound Hwaits]; [lia |].
    unfold emit. cbn [snd fst].
    remember (request (retryCount + 1) (S n)).2 as rest eqn:Hrest.
    change (thisFetch :: evs ++ [backoff retryCount])%list
      with ([thisFetch] ++ evs ++ [backoff retryCount])%list.
    repeat rewrite fetchCount_app. repeat rewrite delays_app.
    rewrite Hf, Hd, Hwaits.
    change (fetchCount [thisFetch]) with 1%nat.
    change (fetchCount [backoff retryCount]) with 0%nat.
    change (delays [thisFetch]) with (@nil Z).
    change (delays [backoff retryCount])
      with [retryDelay (retryConfig c) * (retryCount + 1)].
    split; [lia |].
    destruct (fetchCount rest) as [| f]; [lia |].
    replace (1 + (0 + 0) + S f - 1)%nat with (S f) by lia.
    replace (S f - 1)%nat with f by lia.
    change (seq 1 (S f)) with (1%nat :: seq 2 f).
    rewrite <- (seq_shift f 1). cbn [List.map app]. rewrite List.map_map.
    f_equal. apply List.map_ext. intros i. f_equal. lia.
Qed.

(** X2: a call of [request] hands its caller a parsed body or [null],
    or else rejects with an [Error]: never a raw thrown value, never an
    unsettled promise. *)
Theorem request_settles_well retryCount n :
  wellSettled (request retryCount n).1 = true.
Proof.
  remember (Z.to_nat (maxRetries - retryCount)) as k eqn:Hk.
  revert retryCount n Hk.
  induction k as [| k IH]; intros retryCount n Hk;
    destruct (request_cases retryCount n)
      as [(result & evs & -> & Hres & _) | (Hlt & evs & _ & ->)];
    try done; try lia.
  unfold emit. cbn [fst]. apply (IH (retryCount + 1) (S n)). lia.
Qed.

Lemma quiet_step retryCount n :
  quietFailure (server n) = true →
  retryCount < maxRetries →
  request retryCount n =
    emit [thisFetch; backoff retryCount] (request (retryCount + 1) (S n)).
Proof.
  intros Hq Hlt. destruct (server n) as [error | response] eqn:Hsrv; simpl in Hq.
  - destruct error; try done.
    rewrite (request_unfold c server window endpoint options retryCount n).
    unfold request_body. rewrite Hsrv. apply Z.ltb_lt in Hlt. rewrite Hlt.
    by rewrite emit_emit.
  - apply andb_prop in Hq as [Hok H401]. apply negb_true_iff in Hok, H401.
    rewrite (failure_then_retry _ _ _ _ _ _ _ response Hsrv Hok Hlt).
    unfold redirectOn401. rewrite H401.
    by destruct (shouldRetry _ _ _ _ _).
Qed.

Lemma quiet_run k : ∀ (retryCount : Z) (n : nat),
  retryCount + Z.of_nat k ≤ maxRetries →
  (∀ i, (i < k)%nat → quietFailure (server (n + i)%nat) = true) →
  request retryCount n =
    emit (attempts k retryCount) (request (retryCount + Z.of_nat k) (n + k)%nat).
Proof.
  induction k as [| k IH]; intros retryCount n Hle Hall.
  - simpl. rewrite emit_nil. f_equal; lia.
  - rewrite quiet_step; [| | lia].
    2:{ specialize (Hall O). rewrite Nat.add_0_r in Hall. apply Hall. lia. }
    rewrite (IH (retryCount + 1) (S n)); [| lia |].
    2:{ intros i Hi. replace (S n + i)%nat with (n + S i)%nat by lia.
        apply Hall. lia. }
    rewrite emit_emit.
    replace (retryCount + 1 + Z.of_nat k) with (retryCount + Z.of_nat (S k)) by lia.
    by replace (S n + k)%nat with (n + S k)%nat by lia.
Qed.

Lemma success_ends retryCount n response :
  server n = FetchResponds response →
  ok response = true →
  request retryCount n = (successResult response, [thisFetch]).
Proof.
  intros Hsrv Hok.
  rewrite (request_unfold c server window endpoint options retryCount n).
  unfold request_body, successResult. rewrite Hsrv, Hok. simpl.
  destruct (status response =? 204); [done |]. by destruct (json response).
Qed.

Lemma quiet_exhausted retryCount n :
  quietFailure (server n) = true →
  maxRetries ≤ retryCount →
  request retryCount n = (failureResult (server n), [thisFetch]).
Proof.
  intros Hq Hge. destruct (server n) as [error | response] eqn:Hsrv; simpl in Hq.
  - destruct error; try done.
    rewrite (request_unfold c server window endpoint options retryCount n).
    unfold request_body. rewrite Hsrv. apply Z.ltb_ge in Hge. by rewrite Hge.
  - apply andb_prop in Hq as [Hok H401]. apply negb_true_iff in Hok, H401.
    rewrite (failure_surfaces _ _ _ _ _ _ _ response Hsrv Hok Hge).
    unfold redirectOn401. by rewrite H401.
Qed.

(** X3: recovery. After [k] failed attempts in a row (rejections with an
    [Error], or answers that are neither successful nor a 401), made
    while retries remain, a successful answer ends the request at once:
    the caller gets [null] for a 204 and the parsed body otherwise, and
    the trace is the [k] attempts with their waits followed by the one
    successful fetch. *)
Theorem request_recovers (k : nat) (retryCount : Z) (n : nat) (response : Response) :
  retryCount + Z.of_nat k ≤ maxRetries →
  (∀ i, (i < k)%nat → quietFailure (server (n + i)%nat) = true) →
  server (n + k)%nat = FetchResponds response →
  ok response = true →
  request retryCount n =
    (successResult response, (attempts k retryCount ++ [thisFetch])%list).
Proof.
  intros Hle Hall Hsrv Hok.
  rewrite (quiet_run k retryCount n Hle Hall).
  by rewrite (success_ends _ _ response Hsrv Hok).
Qed.

(** X4: a service that cannot be reached. When every fetch rejects with
    an [Error], a request started afresh is attempted [maxRetries + 1]
    times, with the linear waits in between, and then rejects with the
    very error of the last fetch. *)
Theorem network_failure_exhausts_retries :
  0 ≤ maxRetries →
  (∀ i, (i ≤ Z.to_nat maxRetries)%nat → rejectsWithError (server i) = true) →
  request 0 0 =
    (failureResult (server (Z.to_nat maxRetries)),
     (attempts (Z.to_nat maxRetries) 0 ++ [thisFetch])%list).
Proof.
  intros Hpos Hall.
  assert (Hq : ∀ i, (i ≤ Z.to_nat maxRetries)%nat → quietFailure (server i) = true).
  { intros i Hi. specialize (Hall i Hi). by destruct (server i). }
  rewrite (quiet_run (Z.to_nat maxRetries) 0 0); [| lia |].
  2:{ intros i Hi. apply Hq. simpl. lia. }
  rewrite quiet_exhausted; [done | | lia].
  apply Hq. simpl. lia.
Qed.

(** X5: redirects. Every redirect a call of [request] causes goes to
    [/login], happens in a browser that is not already on a login path,
    and follows a 401 answer to one of its fetches. *)
Theorem request_redirects_only_on_401 retryCount n href :
  In href (redirects (request retryCount n).2) →
  href = "/login"
  ∧ (∃ pathname, window = Some pathname ∧ includes_str pathname "/login" = false)
  ∧ ∃ m response,
      (n ≤ m)%nat ∧ server m = FetchResponds response ∧ status response = 401.
Proof.
  remember (Z.to_nat (maxRetries - retryCount)) as k eqn:Hk.
  revert retryCount n Hk.
  assert (Hevs : ∀ n evs, redirectOnly window server n evs →
            In href (redirects evs) →
            href = "/login"
            ∧ (∃ pathname, window = Some pathname
                           ∧ includes_str pathname "/login" = false)
            ∧ ∃ m response,
                (n ≤ m)%nat ∧ server m = FetchResponds response
                ∧ status response = 401).
  { intros n evs [-> | (-> & Hw & response & Hsrv & Hst)]; [done |].
    simpl. intros [<- | []]. eauto 10. }
  induction k as [| k IH]; intros retryCount n Hk;
    destruct (request_cases retryCount n)
      as [(result & evs & -> & _ & He) | (Hlt & evs & He & ->)];
    try lia.
  - apply (Hevs n evs He).
  - apply (Hevs n evs He).
  - unfold emit. cbn [snd].
    change (thisFetch :: evs ++ [backoff retryCount])%list
      with ([thisFetch] ++ evs ++ [backoff retryCount])%list.
    repeat rewrite redirects_app. simpl. rewrite app_nil_r.
    intros [Hin | Hin]%in_app_or; [by apply (Hevs n evs He) |].
    destruct (IH (retryCount + 1) (S n) ltac:(lia) Hin)
      as (Hh & Hw & m & response & Hm & Hsrv & Hst).
    split; [done |]. split; [done |]. exists m, response.
    split; [lia | done].
Qed.

(** X6: a rejected fetch is retried exactly when what it rejects with is
    an [Error]; any other thrown value ends the request at once, wrapped
    in an [Error] that carries its message. *)
Theorem rejection_retried_iff_error retryCount n error :
  server n = FetchRejects error →
  retryCount < maxRetries →
  retried (request retryCount n) = isErrorInstance error
  ∧ (isErrorInstance error = false →
     request retryCount n =
       (Rejected (ThrownError (getErrorMessage error)), [thisFetch])).
Proof.
  intros Hsrv Hlt.
  destruct (isErrorInstance error) eqn:He.
  - split; [| done].
    rewrite quiet_step; [| by rewrite Hsrv | done].
    pose proof (request_fetches_once (retryCount + 1) (S n)) as Hone.
    unfold retried, emit. cbn [snd].
    change ([thisFetch; backoff retryCount]
            ++ (request (retryCount + 1) (S n)).2)%list
      with ([thisFetch] ++ [backoff retryCount]
            ++ (request (retryCount + 1) (S n)).2)%list.
    repeat rewrite fetchCount_app.
    change (fetchCount [thisFetch]) with 1%nat.
    change (fetchCount [backoff retryCount]) with 0%nat.
    apply Nat.ltb_lt. lia.
  - assert (Hrun : request retryCount n =
                     (Rejected (ThrownError (getErrorMessage error)), [thisFetch])).
    { rewrite (request_unfold c server window endpoint options retryCount n).
      unfold request_body. rewrite Hsrv. by destruct error. }
    split; [by rewrite Hrun | done].
Qed.

(** Every fetch of a run is the same request. *)
Lemma fetchHeaders_same retryCount n h :
  In h (fetchHeaders (request retryCount n).2) → h = requestHeaders c options.
Proof.
  remember (Z.to_nat (maxRetries - retryCount)) as k eqn:Hk.
  revert retryCount n Hk.
  assert (Hevs : ∀ n evs, redirectOnly window server n evs → fetchHeaders evs = []).
  { by intros n evs [-> | (-> & _)]. }
  induction k as [| k IH]; intros retryCount n Hk;
    destruct (request_cases retryCount n)
      as [(result & evs & -> & _ & He) | (Hlt & evs & He & ->)];
    try lia.
  - cbn [snd]. change (thisFetch :: evs) with ([thisFetch] ++ evs)%list.
    unfold fetchHeaders. rewrite omap_app. fold (fetchHeaders evs).
    rewrite (Hevs n evs He). simpl. by intros [<- | []].
  - cbn [snd]. change (thisFetch :: evs) with ([thisFetch] ++ evs)%list.
    unfold fetchHeaders. rewrite omap_app. fold (fetchHeaders evs).
    rewrite (Hevs n evs He). simpl. by intros [<- | []].
  - unfold emit. cbn [snd].
    remember (request (retryCount + 1) (S n)).2 as rest eqn:Hrest.
    change (thisFetch :: evs ++ [backoff retryCount])%list
      with ([thisFetch] ++ evs ++ [backoff retryCount])%list.
    unfold fetchHeaders. repeat rewrite omap_app. fold (fetchHeaders evs).
    fold (fetchHeaders rest). rewrite (Hevs n evs He). simpl.
    intros [<- | Hin]; [done |]. subst rest.
    apply (IH (retryCount + 1) (S n)); [lia | done].
Qed.

End RunFacts.

(** *** The headers of a request *)

(** X7: the credential header. A request carries the static key under
    [x-api-key] whenever one is armed, and then no bearer token is
    attached; it carries [Authorization: Bearer <token>] only when a
    token is armed and no key is; with neither armed the caller's own
    headers go out untouched. The content type is the caller's, or JSON
    by default. So the client itself never adds both credentials. *)
Theorem requestHeaders_credentials (c : t) (options : RequestInit) :
  requestHeaders c options !! "x-api-key" =
    (if truthy (apiKey c) then apiKey c else headers options !! "x-api-key")
  ∧ requestHeaders c options !! "Authorization" =
      (if truthy (apiKey c) then headers options !! "Authorization"
       else if truthy (authToken c)
            then Some ("Bearer " +:+ default "" (authToken c))
            else headers options !! "Authorization")
  ∧ requestHeaders c options !! "Content-Type" =
      Some (default "application/json" (headers options !! "Content-Type"))
  ∧ (headers options !! "x-api-key" = None →
     headers options !! "Authorization" = None →
     requestHeaders c options !! "x-api-key" = None
     ∨ requestHeaders c options !! "Authorization" = None).
Proof.
  assert (Hbase : ∀ k : string,
            (headers options ∪ {[ "Content-Type" := "application/json" ]}) !! k
            = if decide (k = "Content-Type")
              then Some (default "application/json" (headers options !! k))
              else headers options !! k).
  { intros k. rewrite lookup_union.
    destruct (decide (k = "Content-Type")) as [-> | Hne].
    - rewrite lookup_singleton_eq. by destruct (headers options !! "Content-Type").
    - rewrite lookup_singleton_ne by done. by destruct (headers options !! k). }
  unfold requestHeaders. cbv zeta.
  destruct (truthy (apiKey c)) eqn:Hk; [| destruct (truthy (authToken c)) eqn:Ht].
  - repeat split.
    + rewrite lookup_insert_eq. by destruct (apiKey c).
    + rewrite lookup_insert_ne by done. by rewrite Hbase.
    + rewrite lookup_insert_ne by done. by rewrite Hbase.
    + intros _ Ha. right. rewrite lookup_insert_ne by done. by rewrite Hbase.
  - repeat split.
    + rewrite lookup_insert_ne by done. by rewrite Hbase.
    + by rewrite lookup_insert_eq.
    + rewrite lookup_insert_ne by done. by rewrite Hbase.
    + intros Hx _. left. rewrite lookup_insert_ne by done. by rewrite Hbase.
  - repeat split; rewrite ?Hbase; try done.
    intros Hx _. left. exact Hx.
Qed.

(** *** The methods of the client *)

(** X26: which method is kept from retrying on a server error. Of all
    the methods of the client, the reads are exactly those sent without
    a non-idempotent verb, and the retry decision on a 500 is refused for
    one method only, the creation of an API key: every other write
    (creating, updating, deleting, starting or stopping a server, login,
    logout, password change, deleting an API key) is made again on a 500
    while retries remain, whatever names and ids it is called with. *)
Theorem only_key_creation_is_excluded (call : ApiCall) :
  isNonIdempotent (optionsOf call) = negb (isRead call)
  ∧ shouldRetryOnServerError (endpointOf call) (optionsOf call)
      = negb (isCreateApiKey call)
  ∧ ∀ (c : t) (retryCount : Z) (response : Response),
      status response = 500 →
      retryCount < maxRetries (retryConfig c) →
      includes_num (retryStatuses (retryConfig c)) 500 = true →
      shouldRetry c (endpointOf call) (optionsOf call) retryCount response
        = negb (isCreateApiKey call).
Proof.
  assert (Hgate : shouldRetryOnServerError (endpointOf call) (optionsOf call)
                  = negb (isCreateApiKey call)).
  { unfold shouldRetryOnServerError.
    destruct call; try reflexivity; simpl endpointOf; simpl optionsOf;
      change (isNonIdempotent _) with true; simpl negb at 1; rewrite orb_false_l;
      apply negb_true_iff, String.eqb_neq; simpl; discriminate. }
  split; [by destruct call |]. split; [exact Hgate |].
  intros c retryCount response Hst Hlt Hin.
  unfold shouldRetry. rewrite Hst, Hin, Hgate.
  apply Z.ltb_lt in Hlt. by rewrite Hlt.
Qed.

(** *** Runs of the production client, continued *)

Lemma request_recovers_witness :
  request api (answeringThen unavailable success) None "/api/status/" noOptions 0 0
  = (Resolved (JObject ∅),
     [thisFetch api "/api/status/" noOptions; EvDelay 1000;
      thisFetch api "/api/status/" noOptions]).
Proof.
  exact (request_recovers api (answeringThen unavailable success) None
           "/api/status/" noOptions 1 0 0 success
           ltac:(vm_compute; discriminate) ltac:(by intros [| i]; [| lia])
           eq_refl eq_refl).
Defined.

Lemma network_failure_witness :
  let server := unreachable (ThrownError "Failed to fetch") in
  let run := request api server None "/api/status/" noOptions 0 0 in
  run.1 = Rejected (ThrownError "Failed to fetch")
  ∧ fetchCount run.2 = 4%nat
  ∧ delays run.2 = [1000; 2000; 3000].
Proof.
  intros server run.
  pose proof (network_failure_exhausts_retries api server None "/api/status/"
                noOptions ltac:(vm_compute; discriminate)
                ltac:(by intros i _)) as Hrun.
  unfold run. rewrite Hrun. by repeat split.
Defined.

Lemma request_redirects_witness :
  let run := request api (answering unauthorized) (Some "/app/servers")
               "/api/servers/" noOptions 3 0 in
  redirects run.2 = ["/login"]
  ∧ ∃ m response,
      answering unauthorized m = FetchResponds response ∧ status response = 401.
Proof.
  intros run. split; [reflexivity |].
  destruct (request_redirects_only_on_401 api (answering unauthorized)
              (Some "/app/servers") "/api/servers/" noOptions 3 0 "/login")
    as (_ & _ & m & response & _ & Hsrv & Hst).
  - left. reflexivity.
  - by exists m, response.
Defined.

Lemma rejection_retried_witness :
  retried (request api (unreachable (ThrownString "offline")) None
             "/api/status/" noOptions 0 0) = false
  ∧ request api (unreachable (ThrownString "offline")) None
      "/api/status/" noOptions 0 0
    = (Rejected (ThrownError "offline"), [thisFetch api "/api/status/" noOptions]).
Proof.
  destruct (rejection_retried_iff_error api (unreachable (ThrownString "offline"))
              None "/api/status/" noOptions 0 0 (ThrownString "offline")
              eq_refl ltac:(vm_compute; reflexivity)) as [Hr Hrun].
  split; [exact Hr | by apply Hrun].
Defined.


End ApiClientFacts.

(** ** The authentication provider *)

Module AuthFacts.

Import Auth.

(** Without a usable stored token the boot effect sends nothing, leaves
    the browser alone and only clears the loading flag. *)
Lemma bootEffect_without_token server w :
  truthy (getStoredToken w) = false →
  network (bootEffect server w) = network w
  ∧ window (bootEffect server w) = window w
  ∧ state (bootEffect server w) =
      {| user := user (state w); isAuthenticated := isAuthenticated (state w);
         isLoading := false |}.
Proof. unfold bootEffect. by intros ->. Qed.

(** C7: booting with no persisted bearer token (none stored, or none
    that is non-empty) issues no network call and takes the session to
    [{user: null, authenticated: false, loading: false}]. *)
Theorem boot_without_token server window api :
  truthy (getStoredToken (mount window api)) = false →
  state (boot server window api) =
    {| user := None; isAuthenticated := false; isLoading := false |}
  ∧ network (boot server window api) = [].
Proof.
  intros Htoken. unfold boot.
  by destruct (bootEffect_without_token server _ Htoken) as (-> & _ & ->).
Qed.

Lemma boot_without_token_witness :
  let window := Some {| pathname := "/app"; localStorage := ∅ |} in
  let server := ApiClient.answering ApiClient.success in
  getStoredToken (mount window ApiClient.api) = None
  ∧ state (boot server window ApiClient.api) =
      {| user := None; isAuthenticated := false; isLoading := false |}
  ∧ network (boot server window ApiClient.api) = [].
Proof.
  intros window server. split; [reflexivity |].
  apply (boot_without_token server window ApiClient.api). reflexivity.
Defined.

(** With a stored token, by contrast, the identity check is sent. *)
Example boot_with_token_fetches :
  let window := Some {| pathname := "/app";
                        localStorage := {[ TOKEN_KEY := "jwt" ]} |} in
  let w := boot (ApiClient.answering ApiClient.success) window ApiClient.api in
  ApiClient.fetchCount (network w) = 1%nat
  ∧ isAuthenticated (state w) = true
  ∧ isLoading (state w) = false.
Proof. vm_compute. by repeat split. Qed.

(** *** The reducer *)

(** X8: the session invariant. Whatever actions the reducer is given
    from the initial state on, the session is authenticated exactly when
    it holds a user. *)
Theorem authenticated_iff_user (actions : list AuthAction) :
  isAuthenticated (fold_left authReducer actions initialState)
  = bool_decide (is_Some (user (fold_left authReducer actions initialState))).
Proof.
  assert (H : ∀ s, isAuthenticated s = bool_decide (is_Some (user s)) →
              isAuthenticated (fold_left authReducer actions s)
              = bool_decide (is_Some (user (fold_left authReducer actions s)))).
  { induction actions as [| a actions IH]; intros s Hs; [done |].
    simpl. apply IH. by destruct a. }
  by apply H.
Qed.

(** *** The stored token *)

(** X9: the stored token round trip. In a browser a token that was
    stored is the one read back, and after removal none is read; outside
    a browser storing does nothing and none is ever read. Neither call
    touches another storage key, the client or the session. *)
Theorem stored_token_round_trip (token : string) (w : World) :
  getStoredToken (setStoredToken token w)
    = match window w with Some _ => Some token | None => None end
  ∧ getStoredToken (removeStoredToken w) = None
  ∧ (∀ key, key ≠ TOKEN_KEY →
       getItem key (setStoredToken token w) = getItem key w
       ∧ getItem key (removeStoredToken w) = getItem key w)
  ∧ api (setStoredToken token w) = api w
  ∧ state (setStoredToken token w) = state w
  ∧ api (removeStoredToken w) = api w
  ∧ state (removeStoredToken w) = state w.
Proof.
  unfold getStoredToken, getItem, setStoredToken, removeStoredToken.
  destruct (window w) as [b0 |] eqn:Hw; simpl.
  - rewrite lookup_insert_eq, lookup_delete_eq.
    split; [done |]. split; [done |]. split; [| done].
    intros key Hkey.
    by rewrite lookup_insert_ne, lookup_delete_ne.
  - rewrite Hw. simpl. by repeat split.
Qed.

(** *** Booting with a stored token *)

Lemma boot_with_token server window api :
  truthy (getStoredToken (mount window api)) = true →
  boot server window api =
    let token := getStoredToken (mount window api) in
    let w := record (identityCheck server window api).2
               (setupAuthInterceptor token (mount window api)) in
    match (identityCheck server window api).1 with
    | ApiClient.Resolved value => dispatch (SET_USER (asUser value)) w
    | _ => dispatch LOGOUT (setupAuthInterceptor None (removeStoredToken w))
    end.
Proof. unfold boot, bootEffect. by intros ->. Qed.

(** The three steps every way out of a session shares. *)
Lemma signed_out w :
  let w' := dispatch LOGOUT (setupAuthInterceptor None (removeStoredToken w)) in
  state w' = {| user := None; isAuthenticated := false; isLoading := false |}
  ∧ getStoredToken w' = None
  ∧ ApiClient.authToken (Auth.api w') = None
  ∧ ApiClient.apiKey (Auth.api w') = ApiClient.apiKey (Auth.api w)
  ∧ network w' = network w.
Proof.
  unfold removeStoredToken, getStoredToken.
  destruct (window w) as [b |] eqn:Hw; simpl; rewrite ?Hw, ?lookup_delete_eq;
    by repeat split.
Qed.

(** X10: booting with a stored token that the service does not accept.
    When the identity check does not resolve, the stored token is
    removed, the client is disarmed and the session ends up
    unauthenticated and no longer loading; the network saw exactly the
    events of the identity check. *)
Theorem boot_rejected_token_is_cleared server window api :
  truthy (getStoredToken (mount window api)) = true →
  (∀ value, (identityCheck server window api).1 ≠ ApiClient.Resolved value) →
  state (boot server window api)
    = {| user := None; isAuthenticated := false; isLoading := false |}
  ∧ getStoredToken (boot server window api) = None
  ∧ ApiClient.authToken (Auth.api (boot server window api)) = None
  ∧ network (boot server window api) = (identityCheck server window api).2.
Proof.
  intros Htoken Hrej. rewrite boot_with_token by done. cbv zeta.
  destruct (identityCheck server window api).1 as [value | error |] eqn:Hres;
    [by destruct (Hrej value) | |].
  all: match goal with
       | |- context [removeStoredToken ?w] =>
           destruct (signed_out w) as (Hs & Ht & Ha & _ & Hn)
       end.
  all: by rewrite Hs, Ht, Ha, Hn.
Qed.

Lemma identityCheck_headers server window api h :
  truthy (getStoredToken (mount window api)) = true →
  In h (ApiClient.fetchHeaders (identityCheck server window api).2) →
  h !! "Authorization"
    = Some ("Bearer " +:+ default "" (getStoredToken (mount window api)))
  ∧ h !! "x-api-key" = None.
Proof.
  intros Htoken Hin. unfold identityCheck, getCurrentUser in Hin. cbv zeta in Hin.
  apply ApiClientFacts.fetchHeaders_same in Hin as ->.
  unfold ApiClient.requestHeaders, setupAuthInterceptor, ApiClient.setAuthToken.
  simpl. rewrite Htoken. simpl. rewrite Htoken.
  split; [apply lookup_insert_eq | by rewrite lookup_insert_ne].
Qed.

(** X11: booting with a stored token that the service accepts. When the
    identity check resolves, the session takes the user it resolved
    with and stops loading (authenticated exactly when that user is not
    [null]), the token stays in storage, the client stays armed with it
    and with no static key, and every fetch of the check carried the
    token as [Authorization: Bearer] and no [x-api-key]. *)
Theorem boot_accepted_token server window api value :
  truthy (getStoredToken (mount window api)) = true →
  (identityCheck server window api).1 = ApiClient.Resolved value →
  state (boot server window api)
    = {| user := asUser value;
         isAuthenticated := bool_decide (is_Some (asUser value));
         isLoading := false |}
  ∧ getStoredToken (boot server window api) = getStoredToken (mount window api)
  ∧ ApiClient.authToken (Auth.api (boot server window api))
      = getStoredToken (mount window api)
  ∧ ApiClient.apiKey (Auth.api (boot server window api)) = None
  ∧ ∀ h, In h (ApiClient.fetchHeaders (network (boot server window api))) →
         h !! "Authorization"
           = Some ("Bearer " +:+ default "" (getStoredToken (mount window api)))
         ∧ h !! "x-api-key" = None.
Proof.
  intros Htoken Hres. rewrite boot_with_token by done. cbv zeta. rewrite Hres.
  split; [done |]. split; [done |].
  split; [| split].
  - simpl. unfold ApiClient.setAuthToken. by rewrite Htoken.
  - simpl. unfold ApiClient.setAuthToken. by rewrite Htoken.
  - intros h Hin. by apply (identityCheck_headers server window api).
Qed.

Lemma boot_accepted_token_witness :
  let w := boot (ApiClient.answering ApiClient.success) (Some returningBrowser)
             ApiClient.api in
  isAuthenticated (state w) = true
  ∧ getStoredToken w = Some "jwt"
  ∧ ApiClient.authToken (Auth.api w) = Some "jwt".
Proof.
  intros w.
  destruct (boot_accepted_token (ApiClient.answering ApiClient.success)
              (Some returningBrowser) ApiClient.api (JObject ∅) eq_refl eq_refl)
    as (Hs & Ht & Ha & _).
  unfold w. rewrite Hs, Ht, Ha. by repeat split.
Defined.

Lemma boot_rejected_token_witness :
  let w := boot (ApiClient.answering ApiClient.unauthorized)
             (Some returningBrowser) ApiClient.api in
  state w = {| user := None; isAuthenticated := false; isLoading := false |}
  ∧ getStoredToken w = None
  ∧ ApiClient.fetchCount (network w) = 4%nat.
Proof.
  intros w.
  destruct (boot_rejected_token_is_cleared
              (ApiClient.answering ApiClient.unauthorized)
              (Some returningBrowser) ApiClient.api eq_refl
              ltac:(by intros value))
    as (Hs & Ht & _ & Hn).
  unfold w. rewrite Hs, Ht, Hn. by repeat split.
Defined.

(** *** Login and logout *)

(** X12: logout. Whether the logout call succeeds or fails, the stored
    token is removed, the client is disarmed, the session is
    unauthenticated, the query cache is empty and exactly one toast is
    added; and a page opened afterwards on that browser boots without any
    network call. *)
Theorem logout_always_signs_out
    (outcome : Settled (gmap string string)) (s : Session)
    (server : ApiClient.Server) (api' : ApiClient.t) :
  let s' := logoutSettled outcome s in
  state (world s')
    = {| user := None; isAuthenticated := false; isLoading := false |}
  ∧ getStoredToken (world s') = None
  ∧ ApiClient.authToken (Auth.api (world s')) = None
  ∧ queryCache s' = ∅
  ∧ length (toasts s') = S (length (toasts s))
  ∧ network (boot server (window (world s')) api') = []
  ∧ isAuthenticated (state (boot server (window (world s')) api')) = false.
Proof.
  intros s'.
  destruct (signed_out (world s)) as (Hs & Ht & Ha & _ & _).
  assert (Hw : world s' = dispatch LOGOUT
                 (setupAuthInterceptor None (removeStoredToken (world s))))
    by (unfold s', logoutSettled; by destruct outcome).
  rewrite Hw. cbv zeta in Hs, Ht, Ha. rewrite Hs, Ht, Ha.
  split; [done |]. split; [done |]. split; [done |].
  split; [by unfold s', logoutSettled; destruct outcome |].
  split.
  { unfold s', logoutSettled. destruct outcome; simpl;
      rewrite length_app; simpl; lia. }
  assert (Hnone : truthy (getStoredToken
            (mount (window (dispatch LOGOUT (setupAuthInterceptor None
                      (removeStoredToken (world s))))) api')) = false).
  { change (getStoredToken (mount ?win ?a))
      with (getStoredToken (dispatch LOGOUT (setupAuthInterceptor None
              (removeStoredToken (world s))))).
    by rewrite Ht. }
  unfold boot.
  destruct (bootEffect_without_token server _ Hnone) as (-> & _ & ->).
  done.
Qed.

(** X13: login. A successful login with a non-empty token arms the
    client with that token and no static key, authenticates the session
    with the returned user and greets the user by name; in a browser the
    token is stored, so that a page opened afterwards sends it as bearer
    in its identity check. A failed login leaves storage, client and
    session as they were and shows one error toast, which is never
    empty. *)
Theorem login_outcomes (data : LoginResponse) (message : string) (s : Session)
    (server : ApiClient.Server) (api' : ApiClient.t) :
  truthy (Some (access_token data)) = true →
  let s' := loginSettled (Succeeded data) s in
  state (world s')
    = {| user := Some (login_user data); isAuthenticated := true;
         isLoading := false |}
  ∧ ApiClient.authToken (Auth.api (world s')) = Some (access_token data)
  ∧ ApiClient.apiKey (Auth.api (world s')) = None
  ∧ toasts s' = (toasts s
                 ++ [ToastSuccess ("Welcome back, " +:+ username (login_user data)
                                   +:+ "!")])%list
  ∧ getStoredToken (world s')
      = match window (world s) with
        | Some _ => Some (access_token data)
        | None => None
        end
  ∧ (∀ h, is_Some (window (world s)) →
          In h (ApiClient.fetchHeaders
                  (identityCheck server (window (world s')) api').2) →
          h !! "Authorization" = Some ("Bearer " +:+ access_token data))
  ∧ world (loginSettled (Failed message) s) = world s
  ∧ ∃ text, toasts (loginSettled (Failed message) s)
              = (toasts s ++ [ToastError text])%list
            ∧ text ≠ "".
Proof.
  intros Htoken s'.
  assert (Hstored : getStoredToken (world s')
            = match window (world s) with
              | Some _ => Some (access_token data)
              | None => None
              end).
  { unfold s', loginSettled, inWorld, getStoredToken, setStoredToken. simpl.
    destruct (window (world s)) as [b |] eqn:Hw; simpl;
      [apply lookup_insert_eq | by rewrite Hw]. }
  split; [done |].
  split; [unfold s'; simpl; unfold ApiClient.setAuthToken; by rewrite Htoken |].
  split; [unfold s'; simpl; unfold ApiClient.setAuthToken; by rewrite Htoken |].
  split; [done |]. split; [exact Hstored |].
  split.
  { intros h [b Hw] Hin. rewrite Hw in Hstored.
    assert (Hm : getStoredToken (mount (window (world s')) api')
                 = Some (access_token data)) by exact Hstored.
    destruct (identityCheck_headers server (window (world s')) api' h)
      as [Hauth _]; [by rewrite Hm | done |].
    by rewrite Hauth, Hm. }
  split; [done |].
  simpl. eexists. split; [done |].
  unfold or_else, truthy. destruct (String.eqb message "") eqn:He; simpl; [done |].
  by apply String.eqb_neq in He.
Qed.

Lemma login_outcomes_witness :
  let data := {| access_token := "jwt"; login_user := {[ "username" := "admin" ]} |} in
  let s' := loginSettled (Succeeded data)
              (freshSession (Some {| pathname := "/login"; localStorage := ∅ |})) in
  isAuthenticated (state (world s')) = true
  ∧ getStoredToken (world s') = Some "jwt"
  ∧ toasts s' = [ToastSuccess "Welcome back, admin!"].
Proof.
  intros data s'.
  destruct (login_outcomes data "" (freshSession
              (Some {| pathname := "/login"; localStorage := ∅ |}))
              (ApiClient.answering ApiClient.success) ApiClient.api eq_refl)
    as (Hs & _ & _ & Ht & Hg & _).
  unfold s'. rewrite Hs, Ht, Hg. by repeat split.
Defined.

(** *** The route guards *)

(** X14: the route guards. [RequireAuth] shows a spinner while the
    session is loading, the protected content to an authenticated
    session and nothing otherwise; the login page shows a spinner while
    loading, nothing to an authenticated session and its form otherwise.
    Each guard sends the router away, [RequireAuth] to [/login] and the
    login page to [/], exactly when it shows nothing. So in a session
    that is not loading exactly one of the two shows its content and the
    other one redirects, no session state makes both redirect, and while
    the session is loading both show the spinner and neither redirects. *)
Theorem guards_agree (s : AuthState) :
  RequireAuth_render s
    = (if isLoading s then Spinner
       else if isAuthenticated s then Content else Nothing)
  ∧ LoginPage_render s
      = (if isLoading s then Spinner
         else if isAuthenticated s then Nothing else Content)
  ∧ RequireAuth_effect s
      = (match RequireAuth_render s with Nothing => Some "/login" | _ => None end)
  ∧ LoginPage_effect s
      = (match LoginPage_render s with Nothing => Some "/" | _ => None end)
  ∧ (if isLoading s then
       RequireAuth_render s = Spinner ∧ LoginPage_render s = Spinner
       ∧ RequireAuth_effect s = None ∧ LoginPage_effect s = None
     else
       (RequireAuth_render s = Content ∧ RequireAuth_effect s = None
        ∧ LoginPage_render s = Nothing ∧ LoginPage_effect s = Some "/")
       ∨ (RequireAuth_render s = Nothing ∧ RequireAuth_effect s = Some "/login"
          ∧ LoginPage_render s = Content ∧ LoginPage_effect s = None))
  ∧ (RequireAuth_effect s = None ∨ LoginPage_effect s = None).
Proof.
  unfold RequireAuth_render, RequireAuth_effect, LoginPage_render, LoginPage_effect.
  destruct (isLoading s), (isAuthenticated s); simpl; intuition congruence.
Qed.

End AuthFacts.

(** ** The system query hooks *)

Module SystemQueryFacts.

Import SystemQuery.

(** What [useSystemQuery] decides about running, case by case on the
    caller's [enabled] property: [...options] comes last in the object
    literal, so a property the caller sets wins over the computed one. *)
Lemma useSystemQuery_issuesFetch key options amb :
  issuesFetch (useSystemQuery key options amb) =
    match enabled options with
    | Absent => isAuthenticated amb
    | Present (Some b) => b
    | Present None => true
    end.
Proof.
  unfold issuesFetch, useSystemQuery. simpl.
  destruct (enabled options) as [| [[] |]]; simpl; try done.
  by destruct (isAuthenticated amb).
Qed.




(** The hooks as the pages call them, in a session that is not
    authenticated: only the metrics are fetched. *)
Example anonymous_session_fetches_metrics_only :
  q_enabled (useSystemMetrics None anonymous) = Some true
  ∧ q_enabled (useSystemStatus None anonymous) = Some false
  ∧ q_enabled (useSystemHealth None anonymous) = Some false
  ∧ q_enabled (useMcpStatistics None anonymous) = Some false
  ∧ q_enabled (useSystemMetrics (Some enabledFalse) anonymous) = Some false.
Proof. by repeat split. Qed.

(** X20: the polling schedule. For every system resource called without
    a [refetchInterval] or [staleTime] of the caller's, polling is off
    while the page is hidden; while it is visible, statistics poll every
    30 seconds and status, health and metrics every 120 seconds (the
    interval table has no entry under the lower-case keys the hooks pass,
    so they all get the status interval); data is stale after 10 seconds
    for statistics and 30 seconds for the others; and the query is keyed
    ["system", name]. *)
Theorem polling_follows_visibility
    (r : Resource) (options : option UseSystemQueryOptions) (amb : Ambient) :
  refetchInterval (orEmpty options) = Absent →
  staleTime (orEmpty options) = Absent →
  queryKey (useResource r options amb) = ["system"; resourceKey r]
  ∧ q_refetchInterval (useResource r options amb)
      = Some (if isVisible amb then Every (pollingPeriod r) else Off)
  ∧ q_staleTime (useResource r options amb) = Some (staleAfter r)
  ∧ POLLING_INTERVALS !! resourceKey r = None.
Proof.
  intros Hr Hs.
  destruct r; simpl;
    unfold useSystemStatus, useSystemHealth, useSystemMetrics, useMcpStatistics,
      useSystemQuery; simpl; rewrite Hr, Hs; simpl;
    by destruct (isVisible amb).
Qed.

Lemma polling_follows_visibility_witness :
  let hidden := {| isAuthenticated := true; isVisible := false |} in
  let visible := {| isAuthenticated := true; isVisible := true |} in
  q_refetchInterval (useMcpStatistics None hidden) = Some Off
  ∧ q_refetchInterval (useMcpStatistics None visible) = Some (Every 30000)
  ∧ q_refetchInterval (useSystemMetrics None visible) = Some (Every 120000).
Proof.
  intros hidden visible.
  destruct (polling_follows_visibility McpStatistics None hidden eq_refl eq_refl)
    as (_ & H1 & _).
  destruct (polling_follows_visibility McpStatistics None visible eq_refl eq_refl)
    as (_ & H2 & _).
  destruct (polling_follows_visibility SystemMetrics None visible eq_refl eq_refl)
    as (_ & H3 & _).
  split; [exact H1 |]. split; [exact H2 | exact H3].
Defined.

End SystemQueryFacts.

(** ** Optimistic updates *)

Module MutationsFacts.

Import Mutations.

Section OptimisticFacts.

Context {TData : Type}.
Variable config : OptimisticUpdateConfig TData.

Lemma onMutate_context qc :
  previousData (onMutate config qc).2 = getQueryData (queryKey config) qc.
Proof. done. Qed.

Lemma onMutate_cache qc :
  cache (onMutate config qc).1 =
    match getQueryData (queryKey config) qc with
    | Some data => <[ queryKey config := updateFn config data ]> (cache qc)
    | None => cache qc
    end.
Proof.
  unfold onMutate, getQueryData. simpl.
  by destruct (cache qc !! queryKey config).
Qed.

(** C8, amended: when an optimistic mutation configured with a rollback
    transform fails and the cache held a value for the declared key when
    the mutation started, the cache value for that key becomes the
    rollback transform applied to that pre-mutation snapshot, whatever
    happened to the cache in between; it is the snapshot itself when the
    transform returns the snapshot unchanged. *)
Theorem failure_writes_rollback_of_snapshot
    (rollback : list TData → list TData) (between : QueryClient TData → QueryClient TData)
    (qc : QueryClient TData) (snapshot : list TData) :
  rollbackFn config = Some rollback →
  getQueryData (queryKey config) qc = Some snapshot →
  getQueryData (queryKey config) (failedMutation config between qc)
    = Some (rollback snapshot)
  ∧ (rollback snapshot = snapshot →
     getQueryData (queryKey config) (failedMutation config between qc)
       = getQueryData (queryKey config) qc).
Proof.
  intros Hroll Hsnap.
  assert (H : getQueryData (queryKey config) (failedMutation config between qc)
              = Some (rollback snapshot)).
  { unfold failedMutation, onError, onMutate. simpl.
    unfold getQueryData in *. simpl. rewrite Hsnap, Hroll. simpl.
    apply lookup_insert_eq. }
  split; [done |]. intros Hid. by rewrite H, Hsnap, Hid.
Qed.

Lemma onError_without_snapshot context later :
  context ≫= previousData = None →
  cache (onError config context later) = cache later.
Proof. unfold onError. by intros ->. Qed.

(** The optimistic transform is applied only when a previous value
    exists. *)
Lemma optimistic_write_needs_previous qc :
  cache (onMutate config qc).1 ≠ cache qc →
  is_Some (getQueryData (queryKey config) qc).
Proof.
  rewrite onMutate_cache.
  by destruct (getQueryData (queryKey config) qc).
Qed.

(** C10: when the cache holds no value for the declared key as the
    mutation starts, [onMutate] writes nothing to the cache and hands on
    an empty snapshot, and [onError] with that context writes nothing
    either, whether or not a rollback transform is configured. *)
Theorem no_snapshot_no_write (qc later : QueryClient TData) :
  getQueryData (queryKey config) qc = None →
  cache (onMutate config qc).1 = cache qc
  ∧ previousData (onMutate config qc).2 = None
  ∧ cache (onError config (Some (onMutate config qc).2) later) = cache later.
Proof.
  intros Hnone. rewrite onMutate_cache, onMutate_context, Hnone.
  split; [done |]. split; [done |].
  apply onError_without_snapshot.
  change (previousData (onMutate config qc).2 = None).
  by rewrite onMutate_context.
Qed.

End OptimisticFacts.

(** C8, as stated, fails: the rollback transform is applied to the
    snapshot, so a transform that is not the identity on it leaves
    something else than the snapshot in the cache. *)
Lemma rollback_result_is_not_the_snapshot :
  ¬ (∀ (config : OptimisticUpdateConfig string) (qc : QueryClient string),
       is_Some (rollbackFn config) →
       getQueryData (queryKey config) (failedMutation config id qc)
         = getQueryData (queryKey config) qc).
Proof.
  intros H. specialize (H removeServerB twoServers (mk_is_Some _ _ eq_refl)).
  vm_compute in H. discriminate.
Qed.

Lemma failure_writes_rollback_witness :
  getQueryData ["servers"; "list"] (failedMutation removeServerB id twoServers)
    = Some ["a"; "b"; "b"].
Proof.
  by destruct (failure_writes_rollback_of_snapshot removeServerB
                 (λ oldData, (oldData ++ ["b"])%list) id twoServers ["a"; "b"]
                 eq_refl eq_refl) as [-> _].
Defined.

Lemma no_snapshot_no_write_witness :
  cache (onMutate removeServerB emptyClient).1 = ∅
  ∧ cache (onError removeServerB
             (Some (onMutate removeServerB emptyClient).2) emptyClient) = ∅.
Proof.
  destruct (no_snapshot_no_write removeServerB emptyClient emptyClient eq_refl)
    as (H1 & _ & H2).
  split; [exact H1 | exact H2].
Defined.

(** *** The optimistic helper, continued *)

Section OptimisticMore.

Context {TData : Type}.
Variable config : OptimisticUpdateConfig TData.

(** X21: the optimistic callbacks touch one key only. Whatever key
    other than the declared one is looked up, its cached value is the
    same after [onMutate], after [onError] and after [onSettled];
    [onSettled] writes no cached value at all; and the only calls the
    client receives are one cancellation from [onMutate] and one
    invalidation from [onSettled], both for the declared key. *)
Theorem optimistic_touches_only_its_key
    (key : list string) (context : option (MutationContext TData))
    (qc : QueryClient TData) :
  key ≠ queryKey config →
  getQueryData key (onMutate config qc).1 = getQueryData key qc
  ∧ getQueryData key (onError config context qc) = getQueryData key qc
  ∧ cache (onSettled config qc) = cache qc
  ∧ received (onMutate config qc).1
      = (received qc ++ [CancelQueries (queryKey config)])%list
  ∧ received (onError config context qc) = received qc
  ∧ received (onSettled config qc)
      = (received qc ++ [InvalidateQueries (queryKey config)])%list.
Proof.
  intros Hne. unfold getQueryData.
  split; [| split; [| split; [done | split; [| split; [| done]]]]].
  - rewrite onMutate_cache. unfold getQueryData.
    destruct (cache qc !! queryKey config); [| done].
    by rewrite lookup_insert_ne.
  - unfold onError. destruct (context ≫= previousData), (rollbackFn config);
      simpl; try done. by rewrite lookup_insert_ne.
  - unfold onMutate, getQueryData. simpl.
    by destruct (cache qc !! queryKey config).
  - unfold onError. by destruct (context ≫= previousData), (rollbackFn config).
Qed.

(** X22: a failure without a rollback transform. When none is
    configured, [onError] changes nothing, so after a failed mutation the
    cache still holds the optimistic value (the update transform applied
    to what was there, or nothing if nothing was there), and settlement
    then asks for the refetch that is to overwrite it. *)
Theorem no_rollback_keeps_optimistic_value (qc : QueryClient TData) :
  rollbackFn config = None →
  failedMutation config id qc = (onMutate config qc).1
  ∧ getQueryData (queryKey config) (failedMutation config id qc)
      = updateFn config <$> getQueryData (queryKey config) qc
  ∧ received (onSettled config (failedMutation config id qc))
      = (received qc ++ [CancelQueries (queryKey config);
                         InvalidateQueries (queryKey config)])%list.
Proof.
  intros Hnone.
  assert (Hf : failedMutation config id qc = (onMutate config qc).1).
  { unfold failedMutation, onError. simpl. rewrite Hnone.
    by destruct (getQueryData (queryKey config) _). }
  rewrite Hf. split; [done |]. split.
  - unfold getQueryData. rewrite onMutate_cache. unfold getQueryData.
    destruct (cache qc !! queryKey config) eqn:Hc; simpl; [| done].
    apply lookup_insert_eq.
  - unfold onSettled, onMutate, getQueryData. simpl.
    destruct (cache qc !! queryKey config); simpl; by rewrite <- app_assoc.
Qed.

End OptimisticMore.

Lemma optimistic_frame_witness :
  getQueryData ["auth"; "api-keys"] (onMutate removeServerB twoServers).1
    = getQueryData ["auth"; "api-keys"] twoServers.
Proof.
  destruct (optimistic_touches_only_its_key removeServerB
              ["auth"; "api-keys"] None twoServers ltac:(discriminate))
    as (H & _).
  exact H.
Defined.

Lemma no_rollback_witness :
  let config := {| queryKey := ["servers"; "list"];
                   updateFn := List.filter (λ s, negb (String.eqb s "b"));
                   rollbackFn := None |} in
  getQueryData ["servers"; "list"] (failedMutation config id twoServers)
    = Some ["a"].
Proof.
  intros config.
  destruct (no_rollback_keeps_optimistic_value config twoServers eq_refl)
    as (_ & H & _).
  exact H.
Defined.

(** *** The generic mutation *)

Section GenericFacts.

Context {TData : Type}.
Variable config : GenericMutationConfig.

Lemma or_else_nonempty (s : option string) (d : string) :
  d ≠ "" → or_else s d ≠ "".
Proof.
  intros Hd. unfold or_else, truthy.
  destruct s as [v |]; [| done]. simpl.
  destruct (String.eqb v "") eqn:He; simpl; [done |].
  by apply String.eqb_neq in He.
Qed.

Lemma invalidate_all (keys : list (list string)) : ∀ ui : Ui TData,
  effects (fold_left invalidateQuery keys ui)
    = (effects ui ++ List.map Invalidated keys)%list
  ∧ cache (client (fold_left invalidateQuery keys ui)) = cache (client ui)
  ∧ received (client (fold_left invalidateQuery keys ui))
      = (received (client ui) ++ List.map InvalidateQueries keys)%list.
Proof.
  induction keys as [| key keys IH]; intros ui; simpl.
  - by rewrite !app_nil_r.
  - destruct (IH (invalidateQuery ui key)) as (-> & -> & ->).
    simpl. by rewrite <- !app_assoc.
Qed.

(** X23: a failed mutation. Its error callback does, in this order and
    nothing else: it shows one error toast, whose text is the configured
    error message if there is one, else the message of the error, else
    "Operation failed", and so is never empty; then it calls the caller's
    hook, if one was given. It leaves the query client alone: nothing is
    invalidated, no cached value changes. *)
Theorem failure_shows_one_toast (error : string) (ui : Ui TData) :
  effects (generic_onError config error ui)
    = (effects ui
       ++ Toasted (ToastError (failureText config error))
          :: if onErrorGiven config then [Hooked (OnErrorCalled error)] else [])%list
  ∧ failureText config error ≠ ""
  ∧ failureText config error
      = (if truthy (errorMessage config) then default "" (errorMessage config)
         else if negb (String.eqb error "") then error
         else "Operation failed")
  ∧ client (generic_onError config error ui) = client ui.
Proof.
  unfold generic_onError. cbv zeta.
  split; [destruct (onErrorGiven config); simpl; by rewrite <- ?app_assoc |].
  split; [unfold failureText; by apply or_else_nonempty, or_else_nonempty |].
  split; [unfold failureText, or_else, truthy;
          destruct (errorMessage config) as [v |]; simpl;
          by repeat case_match |].
  by destruct (onErrorGiven config).
Qed.

(** X24: a successful mutation. Its success callback does, in this
    order and nothing else: it shows the success message as one toast
    when one is configured; it invalidates exactly the declared keys, in
    the declared order; then it calls the caller's hook, if one was
    given. The query client receives just those invalidations, and no
    cached value changes. *)
Theorem success_invalidates_declared_keys (ui : Ui TData) :
  effects (generic_onSuccess config ui)
    = (effects ui
       ++ (if truthy (successMessage config)
           then [Toasted (ToastSuccess (default "" (successMessage config)))]
           else [])
       ++ List.map Invalidated (invalidateQueries config)
       ++ if onSuccessGiven config then [Hooked OnSuccessCalled] else [])%list
  ∧ received (client (generic_onSuccess config ui))
    = (received (client ui)
       ++ List.map InvalidateQueries (invalidateQueries config))%list
  ∧ cache (client (generic_onSuccess config ui)) = cache (client ui).
Proof.
  unfold generic_onSuccess. cbv zeta.
  destruct (invalidate_all (invalidateQueries config)
              (if truthy (successMessage config)
               then show (ToastSuccess (default "" (successMessage config))) ui
               else ui)) as (He & Hd & Hr).
  destruct (onSuccessGiven config); simpl; rewrite He, Hd, Hr;
    destruct (truthy (successMessage config)); simpl;
    by rewrite <- ?app_assoc, ?app_nil_r.
Qed.

(** Creating a server, against a client that has seen nothing yet:
    success toasts, then invalidates the server list; failure only
    toasts. *)
Example createServer_settles :
  let ui := {| client := emptyClient; effects := [] |} in
  effects (generic_settled createServer (Succeeded tt) ui)
    = [Toasted (ToastSuccess "Server created successfully");
       Invalidated ["servers"; "list"]]
  ∧ effects (generic_settled createServer (@Failed unit "boom") ui)
      = [Toasted (ToastError "Failed to create server")].
Proof. by split. Qed.

End GenericFacts.

End MutationsFacts.

(** ** The per-item status poller *)

Module StatusPollerFacts.

Import StatusPoller.

(** *** What the calls do to the fields *)

(** The four ways through [stopPolling]: each map has the identifier or
    has it not. *)
Local Ltac stop_cases id p :=
  unfold stopPolling;
  let Hi := fresh "Hi" in
  let Ht := fresh "Ht" in
  destruct (pollIntervals p !! id) as [? |] eqn:Hi;
  destruct (timeoutRefs p !! id) as [? |] eqn:Ht;
  simpl; rewrite ?Ht; simpl.

Lemma stopPolling_timers id p h :
  timers (stopPolling id p) !! h =
    if decide (pollIntervals p !! id = Some h ∨ timeoutRefs p !! id = Some h)
    then None else timers p !! h.
Proof.
  stop_cases id p; rewrite ?lookup_delete;
    repeat case_decide; subst; intuition congruence.
Qed.

Lemma stopPolling_pollIntervals id p :
  pollIntervals (stopPolling id p) = delete id (pollIntervals p).
Proof. stop_cases id p; try done; by rewrite delete_id. Qed.

Lemma stopPolling_timeoutRefs id p :
  timeoutRefs (stopPolling id p) = delete id (timeoutRefs p).
Proof. stop_cases id p; try done; by rewrite delete_id. Qed.

Lemma stopPolling_nextHandle id p :
  nextHandle (stopPolling id p) = nextHandle p.
Proof. by stop_cases id p. Qed.

Lemma clearEach_fields m p :
  nextHandle (clearEach m p) = nextHandle p
  ∧ pollIntervals (clearEach m p) = pollIntervals p
  ∧ timeoutRefs (clearEach m p) = timeoutRefs p.
Proof.
  unfold clearEach.
  apply (map_fold_weak_ind
           (λ r _, nextHandle r = nextHandle p
                   ∧ pollIntervals r = pollIntervals p
                   ∧ timeoutRefs r = timeoutRefs p)); [done |].
  intros i x m' r _ IH. exact IH.
Qed.

(** After [clearEach m], a timer is live only if it was live before and
    its handle is not registered in [m]. *)
Lemma clearEach_timers m p h tm :
  timers (clearEach m p) !! h = Some tm →
  timers p !! h = Some tm ∧ ∀ id, m !! id ≠ Some h.
Proof.
  unfold clearEach. revert tm.
  apply (map_fold_weak_ind
           (λ r m, ∀ tm, timers r !! h = Some tm →
                         timers p !! h = Some tm ∧ ∀ id, m !! id ≠ Some h)).
  - intros tm Hl. split; [done |]. intros id. by rewrite lookup_empty.
  - intros i x m' r Hi IH tm. simpl. rewrite lookup_delete.
    case_decide as Hx; [done |]. intros Hl.
    destruct (IH tm Hl) as [Hp Hm]. split; [done |].
    intros id. rewrite lookup_insert. case_decide; [congruence | apply Hm].
Qed.

(** *** The invariant *)

Lemma Inv_init h0 : Inv (init h0).
Proof. by split; unfold live; simpl; intros *; rewrite lookup_empty. Qed.

Lemma Inv_clearTimer h p : Inv p → Inv (clearTimer h p).
Proof.
  intros [Hi Ht Hf].
  split; unfold live in *; simpl; intros *; rewrite lookup_delete;
    case_decide; try done; eauto.
Qed.

Lemma Inv_stopPolling id p : Inv p → Inv (stopPolling id p).
Proof.
  intros [Hi Ht Hf]. split; unfold live in *.
  - intros h id'. rewrite stopPolling_timers, stopPolling_pollIntervals.
    case_decide as Hd; [done |]. intros Hl. specialize (Hi _ _ Hl).
    rewrite lookup_delete_ne; [done |]. intros ->. naive_solver.
  - intros h id'. rewrite stopPolling_timers, stopPolling_timeoutRefs.
    case_decide as Hd; [done |]. intros Hl. specialize (Ht _ _ Hl).
    rewrite lookup_delete_ne; [done |]. intros ->. naive_solver.
  - intros h tm. rewrite stopPolling_timers, stopPolling_nextHandle.
    case_decide; [done | apply Hf].
Qed.

(** After [startPolling id] the live timers are the two new ones, for
    [id], and those that were live for other identifiers. *)
Lemma startPolling_timers id p h :
  timers (startPolling id p) !! h =
    let p' := stopPolling id p in
    if decide (h = Pos.succ (nextHandle p')) then
      Some {| kind := TimeoutTimer; identifier := id |}
    else if decide (h = nextHandle p') then
      Some {| kind := IntervalTimer; identifier := id |}
    else timers p' !! h.
Proof.
  unfold startPolling. simpl. rewrite !lookup_insert.
  repeat case_decide; naive_solver.
Qed.

Lemma startPolling_pollIntervals id p :
  pollIntervals (startPolling id p)
    = <[ id := nextHandle (stopPolling id p) ]> (delete id (pollIntervals p)).
Proof. unfold startPolling. simpl. by rewrite stopPolling_pollIntervals. Qed.

Lemma startPolling_timeoutRefs id p :
  timeoutRefs (startPolling id p)
    = <[ id := Pos.succ (nextHandle (stopPolling id p)) ]> (delete id (timeoutRefs p)).
Proof. unfold startPolling. simpl. by rewrite stopPolling_timeoutRefs. Qed.

Lemma Inv_startPolling id p : Inv p → Inv (startPolling id p).
Proof.
  intros HI. apply (Inv_stopPolling id) in HI as HI'.
  destruct HI' as [Hi Ht Hf]. split; unfold live in *.
  - intros h id'. rewrite startPolling_timers, startPolling_pollIntervals. simpl.
    repeat case_decide; try done.
    + intros [= <-]. subst. apply lookup_insert_eq.
    + intros Hl. specialize (Hi _ _ Hl).
      rewrite stopPolling_pollIntervals in Hi.
      rewrite lookup_insert_ne; [done |]. intros <-.
      by rewrite lookup_delete_eq in Hi.
  - intros h id'. rewrite startPolling_timers, startPolling_timeoutRefs. simpl.
    repeat case_decide; try done.
    + intros [= <-]. subst. apply lookup_insert_eq.
    + intros Hl. specialize (Ht _ _ Hl).
      rewrite stopPolling_timeoutRefs in Ht.
      rewrite lookup_insert_ne; [done |]. intros <-.
      by rewrite lookup_delete_eq in Ht.
  - intros h tm. rewrite startPolling_timers. unfold startPolling. simpl.
    repeat case_decide; subst; try lia.
    intros Hl. specialize (Hf _ _ Hl). lia.
Qed.

(** [stopAllPolling] leaves no live timer, provided every live timer is
    registered. *)
Lemma stopAllPolling_timers p : Inv p → timers (stopAllPolling p) = ∅.
Proof.
  intros [Hi Ht _]. apply map_empty. intros h.
  destruct (timers (stopAllPolling p) !! h) as [tm |] eqn:Hl; [| done].
  exfalso. unfold stopAllPolling in Hl. simpl in Hl.
  apply clearEach_timers in Hl as [Hl Hnt]. simpl in Hl.
  apply clearEach_timers in Hl as [Hl Hni].
  destruct (clearEach_fields (pollIntervals p) p) as (_ & _ & Htr).
  rewrite Htr in Hnt.
  destruct tm as [[] id].
  - by apply (Hni id), Hi.
  - by apply (Hnt id), Ht.
Qed.

Lemma Inv_stopAllPolling p : Inv p → Inv (stopAllPolling p).
Proof.
  intros HI. pose proof (stopAllPolling_timers p HI) as He.
  split; unfold live; intros *; rewrite He; by rewrite lookup_empty.
Qed.

Lemma Inv_invalidate p : Inv p → Inv (invalidate p).
Proof. by intros [Hi Ht Hf]. Qed.

Create HintDb poller.
#[local] Hint Resolve Inv_init Inv_clearTimer Inv_stopPolling Inv_startPolling
  Inv_stopAllPolling Inv_invalidate : poller.

Lemma Inv_tick stopCondition currentData id p :
  Inv p → Inv (tick stopCondition currentData id p).
Proof. intros HI. unfold tick. repeat case_match; auto with poller. Qed.

#[local] Hint Resolve Inv_tick : poller.

Lemma Inv_step stopCondition p s : Inv p → Inv (step stopCondition p s).
Proof. intros HI. destruct s; simpl; repeat case_match; auto with poller. Qed.

Lemma Inv_run stopCondition steps : ∀ p, Inv p → Inv (run stopCondition steps p).
Proof.
  unfold run. induction steps as [| s steps IH]; intros p HI; [done |].
  simpl. by apply IH, Inv_step.
Qed.

(** *** Counting live timers *)

Lemma isFor_live k id h tm p :
  timers p !! h = Some tm → isFor k id tm = true → live k id h p.
Proof.
  unfold live, isFor. intros -> H. destruct tm as [k' id']. simpl in H.
  destruct k', k; try done; by apply String.eqb_eq in H as ->.
Qed.

Lemma live_registered k id h p : Inv p → live k id h p → registry k p !! id = Some h.
Proof. intros [Hi Ht _]. destruct k; simpl; auto. Qed.

Lemma size_at_most_one {A} (m : gmap positive A) :
  (∀ i j x y, m !! i = Some x → m !! j = Some y → i = j) → (size m ≤ 1)%nat.
Proof.
  induction m as [| i x m Hi _] using map_ind; intros Huniq.
  - rewrite map_size_empty. lia.
  - rewrite map_size_insert_None by done.
    destruct (map_choose_or_empty m) as [(j & y & Hj) | ->].
    + exfalso. assert (i = j) as <-; [| congruence].
      apply (Huniq i j x y); [apply lookup_insert_eq |].
      rewrite lookup_insert_ne; [done | congruence].
    + rewrite map_size_empty. lia.
Qed.

Lemma liveCount_at_most_one k id p : Inv p → (liveCount k id p ≤ 1)%nat.
Proof.
  intros HI. unfold liveCount. apply size_at_most_one.
  intros h1 h2 tm1 tm2
    [Hl1 Hf1]%map_lookup_filter_Some [Hl2 Hf2]%map_lookup_filter_Some.
  simpl in Hf1, Hf2.
  pose proof (live_registered _ _ _ _ HI (isFor_live _ _ _ _ _ Hl1 Hf1)) as H1.
  pose proof (live_registered _ _ _ _ HI (isFor_live _ _ _ _ _ Hl2 Hf2)) as H2.
  congruence.
Qed.

Lemma liveCount_positive k id h p : live k id h p → liveCount k id p ≠ 0%nat.
Proof.
  unfold live, liveCount. intros Hl.
  apply (map_size_ne_0_lookup_2 _ h). eexists.
  apply map_lookup_filter_Some. split; [exact Hl |].
  unfold isFor. simpl. destruct k; apply String.eqb_refl.
Qed.

Lemma startPolling_live id p :
  ∃ hi ht, live IntervalTimer id hi (startPolling id p)
           ∧ live TimeoutTimer id ht (startPolling id p).
Proof.
  exists (nextHandle (stopPolling id p)), (Pos.succ (nextHandle (stopPolling id p))).
  unfold live. rewrite !startPolling_timers. simpl.
  split; repeat case_decide; try done; lia.
Qed.

Lemma startPolling_liveCount k id p :
  Inv p → liveCount k id (startPolling id p) = 1%nat.
Proof.
  intros HI. apply (Inv_startPolling id) in HI.
  pose proof (liveCount_at_most_one k id _ HI) as Hle.
  destruct (startPolling_live id p) as (hi & ht & Hi & Ht).
  assert (liveCount k id (startPolling id p) ≠ 0%nat)
    by (destruct k; eauto using liveCount_positive).
  lia.
Qed.

(** C9: after any sequence of [startPolling], [stopPolling] and
    [stopAllPolling] calls on a new poller, interleaved with its timers
    coming due, every key has at most one live interval timer and at most
    one live timeout timer; calling [startPolling] twice in succession
    for a key leaves exactly one live timer of each kind for it; and
    [stopAllPolling] leaves no live timer at all. *)
Theorem poller_one_timer_pair_per_key
    (stopCondition : string → option bool) (steps : list Step)
    (h0 : positive) (id : string) (k : TimerKind) :
  let p := run stopCondition steps (init h0) in
  (liveCount k id p ≤ 1)%nat
  ∧ liveCount k id (startPolling id (startPolling id p)) = 1%nat
  ∧ timers (stopAllPolling p) = ∅.
Proof.
  intros p.
  assert (HI : Inv p) by apply Inv_run, Inv_init.
  split; [by apply liveCount_at_most_one |].
  split; [by apply startPolling_liveCount, Inv_startPolling |].
  by apply stopAllPolling_timers.
Qed.

(** Three keys started, one of them twice, then everything stopped. *)
Example poller_run :
  let stopWhenDone := λ s, Some (String.eqb s "running") in
  let p := run stopWhenDone
             [StartPolling "a"; StartPolling "b"; StartPolling "a";
              StartPolling "c"] (init 1) in
  liveCount IntervalTimer "a" p = 1%nat
  ∧ liveCount TimeoutTimer "a" p = 1%nat
  ∧ size (timers p) = 6%nat
  ∧ size (timers (stopAllPolling p)) = 0%nat.
Proof. vm_compute. by repeat split. Qed.

(** *** Registrations and live timers agree *)

Lemma Registered_owner k k' id id' h p :
  Registered p → registry k p !! id = Some h → registry k' p !! id' = Some h →
  k = k' ∧ id = id'.
Proof.
  intros [Hi Ht] H1 H2.
  assert (L1 : live k id h p) by (destruct k; auto).
  assert (L2 : live k' id' h p) by (destruct k'; auto).
  unfold live in *. rewrite L1 in L2. by injection L2.
Qed.

Lemma Good_init h0 : Good (init h0).
Proof.
  split; [apply Inv_init |]. split; [| done].
  by split; simpl; intros *; rewrite lookup_empty.
Qed.

Lemma Registered_stopPolling id p :
  Registered p → Registered (stopPolling id p).
Proof.
  intros HR. pose proof HR as [Hi Ht].
  split; intros id' h; unfold live;
    rewrite ?stopPolling_pollIntervals, ?stopPolling_timeoutRefs,
      stopPolling_timers, lookup_delete;
    case_decide as Hid; try done; intros Hreg.
  - case_decide as Hd; [| by apply Hi].
    destruct Hd as [Hd | Hd].
    + by destruct (Registered_owner IntervalTimer IntervalTimer id id' h p HR Hd Hreg).
    + by destruct (Registered_owner TimeoutTimer IntervalTimer id id' h p HR Hd Hreg).
  - case_decide as Hd; [| by apply Ht].
    destruct Hd as [Hd | Hd].
    + by destruct (Registered_owner IntervalTimer TimeoutTimer id id' h p HR Hd Hreg).
    + by destruct (Registered_owner TimeoutTimer TimeoutTimer id id' h p HR Hd Hreg).
Qed.

Lemma Paired_stopPolling id p : Paired p → Paired (stopPolling id p).
Proof.
  intros HP id'. rewrite stopPolling_pollIntervals, stopPolling_timeoutRefs.
  rewrite !lookup_delete. case_decide; [| apply HP].
  split; intros []; done.
Qed.

Lemma Good_stopPolling id p : Good p → Good (stopPolling id p).
Proof.
  intros (HI & HR & HP).
  split; [by apply Inv_stopPolling |].
  split; [by apply Registered_stopPolling | by apply Paired_stopPolling].
Qed.

Lemma Registered_startPolling id p :
  Inv p → Registered p → Registered (startPolling id p).
Proof.
  intros HI HR.
  apply (Inv_stopPolling id) in HI as [_ _ Hf].
  apply (Registered_stopPolling id) in HR as [Hi Ht].
  split; intros id' h; unfold live in *;
    rewrite ?startPolling_pollIntervals, ?startPolling_timeoutRefs,
      startPolling_timers, lookup_insert; cbv zeta;
    rewrite <- ?stopPolling_pollIntervals, <- ?stopPolling_timeoutRefs;
    case_decide as Hid.
  - intros [= <-]. subst. repeat case_decide; try done; lia.
  - intros Hreg. specialize (Hi _ _ Hreg). specialize (Hf _ _ Hi).
    repeat case_decide; try lia. done.
  - intros [= <-]. subst. by case_decide.
  - intros Hreg. specialize (Ht _ _ Hreg). specialize (Hf _ _ Ht).
    repeat case_decide; try lia. done.
Qed.

Lemma Paired_startPolling id p : Paired p → Paired (startPolling id p).
Proof.
  intros HP id'. rewrite startPolling_pollIntervals, startPolling_timeoutRefs.
  rewrite !lookup_insert, !lookup_delete.
  repeat case_decide; try done; apply HP.
Qed.

Lemma Good_startPolling id p : Good p → Good (startPolling id p).
Proof.
  intros (HI & HR & HP).
  split; [by apply Inv_startPolling |].
  split; [by apply Registered_startPolling | by apply Paired_startPolling].
Qed.

Lemma stopAllPolling_maps p :
  pollIntervals (stopAllPolling p) = ∅ ∧ timeoutRefs (stopAllPolling p) = ∅.
Proof.
  unfold stopAllPolling. cbv zeta.
  set (q := with_pollIntervals (λ _, ∅) (clearEach (pollIntervals p) p)).
  split; [| done].
  change (pollIntervals (clearEach (timeoutRefs q) q) = ∅).
  by destruct (clearEach_fields (timeoutRefs q) q) as (_ & -> & _).
Qed.

Lemma Good_stopAllPolling p : Good p → Good (stopAllPolling p).
Proof.
  intros (HI & _ & _). destruct (stopAllPolling_maps p) as [Hi Ht].
  split; [by apply Inv_stopAllPolling |].
  split; [| intros id; by rewrite Hi, Ht, !lookup_empty].
  by split; intros id h; rewrite ?Hi, ?Ht, lookup_empty.
Qed.

Lemma Good_invalidate p : Good p → Good (invalidate p).
Proof. intros (HI & [Hi Ht] & HP). split; [by apply Inv_invalidate |]. by split. Qed.

Lemma Good_tick stopCondition currentData id p :
  Good p → Good (tick stopCondition currentData id p).
Proof.
  intros HG. unfold tick.
  repeat case_match; auto using Good_stopPolling, Good_invalidate.
Qed.

(** A timeout that comes due is spent, and its callback stops the key. *)
Lemma Good_timeoutDue h id p :
  Good p → live TimeoutTimer id h p → Good (stopPolling id (clearTimer h p)).
Proof.
  intros (HI & HR & HP) Hl.
  pose proof HI as [Hii Hit _]. pose proof HR as [Hri Hrt].
  pose proof (Hit _ _ Hl) as Hreg.
  split; [by apply Inv_stopPolling, Inv_clearTimer |].
  split; [| by apply (Paired_stopPolling id (clearTimer h p))].
  split; intros id' h'; unfold live in *;
    rewrite ?stopPolling_pollIntervals, ?stopPolling_timeoutRefs,
      stopPolling_timers; simpl; rewrite !lookup_delete;
    case_decide as Hid; try done; intros Hreg'.
  - case_decide as Hd.
    { destruct Hd as [Hd | Hd].
      - by destruct (Registered_owner IntervalTimer IntervalTimer id id' h' p HR Hd Hreg').
      - by destruct (Registered_owner TimeoutTimer IntervalTimer id id' h' p HR Hd Hreg'). }
    case_decide as Hh; [| by apply Hri].
    subst h'. by destruct (Registered_owner TimeoutTimer IntervalTimer id id' h p HR Hreg Hreg').
  - case_decide as Hd.
    { destruct Hd as [Hd | Hd].
      - by destruct (Registered_owner IntervalTimer TimeoutTimer id id' h' p HR Hd Hreg').
      - by destruct (Registered_owner TimeoutTimer TimeoutTimer id id' h' p HR Hd Hreg'). }
    case_decide as Hh; [| by apply Hrt].
    subst h'. by destruct (Registered_owner TimeoutTimer TimeoutTimer id id' h p HR Hreg Hreg').
Qed.

Lemma Good_step stopCondition p s : Good p → Good (step stopCondition p s).
Proof.
  intros HG. destruct s as [id | id | | h data | h]; simpl;
    auto using Good_startPolling, Good_stopPolling, Good_stopAllPolling.
  - destruct (timers p !! h) as [[[] id] |]; auto using Good_tick.
  - destruct (timers p !! h) as [[[] id] |] eqn:Hl; auto using Good_timeoutDue.
Qed.

Lemma Good_run stopCondition steps : ∀ p, Good p → Good (run stopCondition steps p).
Proof.
  unfold run. induction steps as [| s steps IH]; intros p HG; [done |].
  simpl. by apply IH, Good_step.
Qed.

(** The number of live timers of a kind for a key is read off the map of
    that kind. *)
Lemma liveCount_registry k id p :
  Good p →
  liveCount k id p = match registry k p !! id with Some _ => 1%nat | None => 0%nat end.
Proof.
  intros (HI & HR & _).
  destruct (registry k p !! id) as [h |] eqn:Hreg.
  - pose proof (liveCount_at_most_one k id p HI).
    assert (Hl : live k id h p) by (destruct HR; destruct k; auto).
    pose proof (liveCount_positive k id h p Hl). lia.
  - destruct (liveCount k id p) as [| c] eqn:Hc; [done |].
    assert (Hne : liveCount k id p ≠ 0%nat) by lia.
    unfold liveCount in Hne.
    apply map_size_ne_0_lookup_1 in Hne as (h & tm & [Hl Hf]%map_lookup_filter_Some).
    simpl in Hf.
    pose proof (live_registered _ _ _ _ HI (isFor_live _ _ _ _ _ Hl Hf)). congruence.
Qed.

(** *** Stopping, starting and timers coming due *)

Lemma stopPolling_frame id id' k h p :
  Registered p → id' ≠ id →
  live k id' h (stopPolling id p) ↔ live k id' h p.
Proof.
  intros [Hi Ht] Hne. unfold live in *. rewrite stopPolling_timers.
  case_decide as Hd; [| done].
  split; [done |]. intros Hl.
  destruct Hd as [Hd | Hd]; [apply Hi in Hd | apply Ht in Hd];
    rewrite Hd in Hl; by injection Hl.
Qed.

Lemma startPolling_frame id id' k h p :
  Inv p → Registered p → id' ≠ id →
  live k id' h (startPolling id p) ↔ live k id' h p.
Proof.
  intros HI HR Hne. rewrite <- (stopPolling_frame id id' k h p HR Hne).
  apply (Inv_stopPolling id) in HI as [_ _ Hf].
  unfold live in *. rewrite startPolling_timers. cbv zeta.
  repeat case_decide; subst; try done.
  - split; [by intros [= _ ?] |]. intros Hl. apply Hf in Hl. lia.
  - split; [by intros [= _ ?] |]. intros Hl. apply Hf in Hl. lia.
Qed.

Lemma stopPolling_again id p : stopPolling id (stopPolling id p) = stopPolling id p.
Proof.
  unfold stopPolling at 1. cbv zeta.
  rewrite stopPolling_pollIntervals, lookup_delete_eq.
  by rewrite stopPolling_timeoutRefs, lookup_delete_eq.
Qed.

(** X15: timers come in pairs. In every state a poller can reach, a key
    has a live interval timer exactly when it has a live timeout timer,
    namely when it is registered, and then it has exactly one of each;
    and every handle the maps hold is a live timer of that kind for that
    key, so no registration is stale. *)
Theorem timers_come_in_pairs
    (stopCondition : string → option bool) (steps : list Step)
    (h0 : positive) (id : string) :
  let p := run stopCondition steps (init h0) in
  liveCount IntervalTimer id p = liveCount TimeoutTimer id p
  ∧ liveCount IntervalTimer id p
      = match pollIntervals p !! id with Some _ => 1%nat | None => 0%nat end
  ∧ ∀ k h, registry k p !! id = Some h ↔ live k id h p.
Proof.
  intros p.
  assert (HG : Good p) by apply Good_run, Good_init.
  pose proof HG as (HI & HR & HP).
  rewrite !liveCount_registry by done. simpl.
  split; [| split; [done |]].
  - specialize (HP id).
    destruct (pollIntervals p !! id), (timeoutRefs p !! id); try done.
    + by destruct (proj1 HP (mk_is_Some _ _ eq_refl)).
    + by destruct (proj2 HP (mk_is_Some _ _ eq_refl)).
  - intros k h. split; [| by apply live_registered].
    destruct HR as [Hi Ht]. destruct k; auto.
Qed.

(** X16: stopping a key. From every reachable state, [stopPolling]
    leaves no live timer of either kind for the key and removes it from
    both maps; stopping again changes nothing further, and stopping a key
    that is not registered changes nothing at all. *)
Theorem stopPolling_clears_its_key
    (stopCondition : string → option bool) (steps : list Step)
    (h0 : positive) (id : string) (k : TimerKind) :
  let p := run stopCondition steps (init h0) in
  liveCount k id (stopPolling id p) = 0%nat
  ∧ registry k (stopPolling id p) !! id = None
  ∧ stopPolling id (stopPolling id p) = stopPolling id p
  ∧ (pollIntervals p !! id = None → stopPolling id p = p).
Proof.
  intros p.
  assert (HG : Good p) by apply Good_run, Good_init.
  assert (Hreg : registry k (stopPolling id p) !! id = None).
  { destruct k; simpl;
      rewrite ?stopPolling_pollIntervals, ?stopPolling_timeoutRefs;
      apply lookup_delete_eq. }
  split; [by rewrite liveCount_registry, Hreg by by apply Good_stopPolling |].
  split; [done |]. split; [apply stopPolling_again |].
  intros Hnone. destruct HG as (_ & _ & HP). specialize (HP id).
  unfold stopPolling. rewrite Hnone.
  destruct (timeoutRefs p !! id) eqn:Ht; [| done].
  rewrite Hnone in HP. by destruct (proj2 HP (mk_is_Some _ _ eq_refl)).
Qed.

(** X17: keys do not disturb each other. From every reachable state,
    starting or stopping one key leaves the live timers of every other
    key exactly as they were, handle by handle. *)
Theorem other_keys_undisturbed
    (stopCondition : string → option bool) (steps : list Step)
    (h0 : positive) (id id' : string) (k : TimerKind) (h : positive) :
  id' ≠ id →
  let p := run stopCondition steps (init h0) in
  (live k id' h (startPolling id p) ↔ live k id' h p)
  ∧ (live k id' h (stopPolling id p) ↔ live k id' h p)
  ∧ liveCount k id' (startPolling id p) = liveCount k id' p
  ∧ liveCount k id' (stopPolling id p) = liveCount k id' p.
Proof.
  intros Hne p.
  assert (HG : Good p) by apply Good_run, Good_init.
  pose proof HG as (HI & HR & _).
  split; [by apply startPolling_frame |].
  split; [by apply stopPolling_frame |].
  rewrite !liveCount_registry
    by auto using Good_startPolling, Good_stopPolling.
  destruct k; simpl;
    rewrite ?startPolling_pollIntervals, ?startPolling_timeoutRefs,
      ?stopPolling_pollIntervals, ?stopPolling_timeoutRefs;
    rewrite ?lookup_insert_ne, ?lookup_delete_ne by done; done.
Qed.

Lemma other_keys_undisturbed_witness :
  let p := run (λ _, Some false) [StartPolling "a"; StartPolling "b"] (init 1) in
  liveCount IntervalTimer "b" (stopPolling "a" p) = 1%nat
  ∧ liveCount IntervalTimer "a" (stopPolling "a" p) = 0%nat.
Proof.
  intros p. unfold p. split; [| reflexivity].
  destruct (other_keys_undisturbed (λ _, Some false)
              [StartPolling "a"; StartPolling "b"] 1 "a" "b" IntervalTimer 3
              ltac:(discriminate)) as (_ & _ & _ & ->).
  reflexivity.
Defined.

(** X18: a tick. From every reachable state, a tick for a key whose
    status satisfies the stop condition, or makes it throw, leaves no
    live timer of either kind for that key and asks for no refetch; any
    other tick leaves all timers and both maps as they were, and asks
    for exactly one refetch when it found the item and for none when the
    cache held no data or no such item. *)
Theorem tick_finishes_or_refreshes
    (stopCondition : string → option bool) (steps : list Step) (h0 : positive)
    (currentData : option (list Item)) (id : string) :
  let p := run stopCondition steps (init h0) in
  let p' := tick stopCondition currentData id p in
  if finishes stopCondition (polledStatus currentData id) then
    liveCount IntervalTimer id p' = 0%nat
    ∧ liveCount TimeoutTimer id p' = 0%nat
    ∧ invalidations p' = invalidations p
  else
    timers p' = timers p
    ∧ pollIntervals p' = pollIntervals p
    ∧ timeoutRefs p' = timeoutRefs p
    ∧ invalidations p'
        = (invalidations p
           + match polledStatus currentData id with Some _ => 1 | None => 0 end)%nat.
Proof.
  intros p p'.
  assert (HG : Good p) by apply Good_run, Good_init.
  assert (Hstop : ∀ k, liveCount k id (stopPolling id p) = 0%nat).
  { intros k. rewrite liveCount_registry by by apply Good_stopPolling.
    destruct k; simpl;
      rewrite ?stopPolling_pollIntervals, ?stopPolling_timeoutRefs;
      by rewrite lookup_delete_eq. }
  assert (Hinv : invalidations (stopPolling id p) = invalidations p)
    by (unfold stopPolling; by repeat case_match).
  unfold p', tick, polledStatus, finishes.
  destruct currentData as [items |]; simpl; [| repeat split; lia].
  destruct (List.find _ items) as [item |]; simpl; [| repeat split; lia].
  destruct (stopCondition (statusText item)) as [[] |]; auto.
  simpl. repeat split. lia.
Qed.

(** X19: the maximum duration. From every reachable state, when the
    timeout timer of a key comes due, no live timer of either kind is
    left for that key, the key is gone from both maps, and the live
    timers of every other key are as they were. *)
Theorem timeout_stops_its_key
    (stopCondition : string → option bool) (steps : list Step) (h0 : positive)
    (h : positive) (id : string) :
  let p := run stopCondition steps (init h0) in
  live TimeoutTimer id h p →
  let p' := step stopCondition p (TimeoutDue h) in
  liveCount IntervalTimer id p' = 0%nat
  ∧ liveCount TimeoutTimer id p' = 0%nat
  ∧ pollIntervals p' !! id = None
  ∧ timeoutRefs p' !! id = None
  ∧ ∀ id' k h', id' ≠ id → (live k id' h' p' ↔ live k id' h' p).
Proof.
  intros p Hl p'.
  assert (HG : Good p) by apply Good_run, Good_init.
  assert (Hp' : p' = stopPolling id (clearTimer h p)).
  { unfold p'. simpl. unfold live in Hl. by rewrite Hl. }
  assert (HG' : Good p') by (rewrite Hp'; by apply Good_timeoutDue).
  assert (Hi : pollIntervals p' !! id = None).
  { rewrite Hp', stopPolling_pollIntervals. apply lookup_delete_eq. }
  assert (Ht : timeoutRefs p' !! id = None).
  { rewrite Hp', stopPolling_timeoutRefs. apply lookup_delete_eq. }
  rewrite !liveCount_registry by done. simpl. rewrite Hi, Ht.
  repeat split; try done.
  - rewrite Hp'. unfold live. rewrite stopPolling_timers. simpl.
    case_decide; [done |]. rewrite lookup_delete. by case_decide.
  - intros Hl'. rewrite Hp'. unfold live in *.
    destruct HG as (_ & [Hri Hrt] & _).
    rewrite stopPolling_timers. simpl.
    case_decide as Hd.
    + destruct Hd as [Hd | Hd]; [apply Hri in Hd | apply Hrt in Hd];
        unfold live in Hd; rewrite Hd in Hl'; by injection Hl'.
    + rewrite lookup_delete. case_decide; [| done].
      subst h'. rewrite Hl in Hl'. by injection Hl'.
Qed.

Lemma timeout_stops_witness :
  let p := run (λ _, Some false) [StartPolling "a"; StartPolling "b"] (init 1) in
  let p' := step (λ _, Some false) p (TimeoutDue 2) in
  liveCount IntervalTimer "a" p' = 0%nat
  ∧ liveCount TimeoutTimer "a" p' = 0%nat
  ∧ liveCount IntervalTimer "b" p' = 1%nat.
Proof.
  intros p p'.
  destruct (timeout_stops_its_key (λ _, Some false)
              [StartPolling "a"; StartPolling "b"] 1 2 "a" eq_refl)
    as (Hi & Ht & _).
  split; [exact Hi |]. split; [exact Ht | reflexivity].
Defined.

End StatusPollerFacts.

(** ** The error helpers *)

Module ErrorsFacts.

Import Errors.

(** X25: the message of a caught value. [getErrorMessage] never returns
    the empty string. Every instance of [Error] passes [isApiError],
    having a [message]. For every value that passes [isApiError], an
    instance of [Error] or not: if it has a [field] it is reported as a
    validation error, by its [detail], else its [message], else the name
    of the field, even when its code says network error; else, if its
    code is [NETWORK_ERROR], the network message is returned whatever
    [detail] and [message] say; else the text is its [detail], else its
    [message], else "An unexpected error occurred". A value that does not
    pass [isApiError] gets that generic message and no code. *)
Theorem getErrorMessage_never_empty (e : Unknown) :
  getErrorMessage e ≠ ""
  ∧ (∀ props, isApiError (UObject true props) = true)
  ∧ (if isApiError e then
       getErrorMessage e
       = (if hasProp "field" e then
            or_else (prop "detail" e)
              (or_else (prop "message" e)
                 ("Validation error for field: "
                  +:+ default "undefined" (prop "field" e)))
          else if bool_decide (prop "code" e = Some "NETWORK_ERROR") then
            "Network connection failed. Please check your internet connection."
          else
            or_else (prop "detail" e)
              (or_else (prop "message" e) "An unexpected error occurred"))
       ∧ getErrorCode e = prop "code" e
     else
       getErrorMessage e = "An unexpected error occurred"
       ∧ getErrorCode e = None).
Proof.
  assert (Herr : ∀ ps, isApiError (UObject true ps) = true).
  { intros ps. unfold isApiError, hasProp.
    change (true && String.eqb "message" "message") with true.
    by rewrite !orb_true_r. }
  split.
  { unfold getErrorMessage.
    destruct (isValidationError e);
      [by apply MutationsFacts.or_else_nonempty, MutationsFacts.or_else_nonempty |].
    destruct (isNetworkError e); [done |].
    destruct (isApiError e) eqn:Hapi;
      [by apply MutationsFacts.or_else_nonempty, MutationsFacts.or_else_nonempty |].
    destruct e as [[] props' |]; try done.
    by rewrite Herr in Hapi. }
  split; [apply Herr |].
  unfold getErrorMessage, getErrorCode, isValidationError, isNetworkError.
  destruct (isApiError e) eqn:Hapi; simpl.
  - split; [| done].
    destruct (hasProp "field" e); [done |].
    by destruct (bool_decide (prop "code" e = Some "NETWORK_ERROR")).
  - split; [| done]. destruct e as [[] props' |]; try done.
    by rewrite Herr in Hapi.
Qed.

(** An [Error] that also carries a [detail] or a code of its own. *)
Example error_instances :
  getErrorMessage (UObject true {[ "message" := "x"; "detail" := "d" ]}) = "d"
  ∧ getErrorMessage (UObject true {[ "message" := "x"; "code" := "NETWORK_ERROR" ]})
    = "Network connection failed. Please check your internet connection."
  ∧ getErrorMessage (ofError "x") = "x"
  ∧ getErrorMessage (ofError "") = "An unexpected error occurred".
Proof. vm_compute. by repeat split. Qed.

End ErrorsFacts.
